(** * Security engine of pnit (backend utils/security.js)

    A shallow embedding of the security module: the [EncryptionManager]
    (encrypt / decrypt with a key fingerprint), rate limiting, account
    lockout, audit logging and the session store.  Database queries are
    modelled as transformations of an explicit table state; every query may
    fail (a storage outage), which is modelled by a list of fault bits
    consumed one per query. *)

From Stdlib Require Import ZArith List String Ascii Bool Lia.
From Stdlib Require Import Strings.Byte.
Import ListNotations.
Open Scope string_scope.
Open Scope Z_scope.
Open Scope list_scope.

(* ================================================================== *)
(** ** SHA-256 (crypto.createHash('sha256')), needed for the key id *)

Module Sha256.

Definition mask32 : Z := 2 ^ 32 - 1.
Definition add32 (x y : Z) : Z := (x + y) mod 2 ^ 32.
Definition rotr (x : Z) (n : Z) : Z :=
  Z.land mask32 (Z.lor (Z.shiftr x n) (Z.shiftl x (32 - n))).

Definition big_sigma0 (a : Z) : Z := Z.lxor (rotr a 2) (Z.lxor (rotr a 13) (rotr a 22)).
Definition big_sigma1 (e : Z) : Z := Z.lxor (rotr e 6) (Z.lxor (rotr e 11) (rotr e 25)).
Definition small_sigma0 (x : Z) : Z := Z.lxor (rotr x 7) (Z.lxor (rotr x 18) (Z.shiftr x 3)).
Definition small_sigma1 (x : Z) : Z := Z.lxor (rotr x 17) (Z.lxor (rotr x 19) (Z.shiftr x 10)).
Definition ch (e f g : Z) : Z := Z.lxor (Z.land e f) (Z.land (Z.lxor e mask32) g).
Definition maj (a b c : Z) : Z :=
  Z.lxor (Z.land a b) (Z.lxor (Z.land a c) (Z.land b c)).

Definition round_constants : list Z :=
  [ 1116352408; 1899447441; 3049323471; 3921009573; 961987163; 1508970993;
    2453635748; 2870763221; 3624381080; 310598401; 607225278; 1426881987;
    1925078388; 2162078206; 2614888103; 3248222580; 3835390401; 4022224774;
    264347078; 604807628; 770255983; 1249150122; 1555081692; 1996064986;
    2554220882; 2821834349; 2952996808; 3210313671; 3336571891; 3584528711;
    113926993; 338241895; 666307205; 773529912; 1294757372; 1396182291;
    1695183700; 1986661051; 2177026350; 2456956037; 2730485921; 2820302411;
    3259730800; 3345764771; 3516065817; 3600352804; 4094571909; 275423344;
    430227734; 506948616; 659060556; 883997877; 958139571; 1322822218;
    1537002063; 1747873779; 1955562222; 2024104815; 2227730452; 2361852424;
    2428436474; 2756734187; 3204031479; 3329325298 ].

Definition initial_hash : list Z :=
  [ 1779033703; 3144134277; 1013904242; 2773480762; 1359893119; 2600822924;
    528734635; 1541459225 ].

(** Padding: the message, one 0x80 byte, zeros up to 56 mod 64, then the
    bit length as a 64-bit big-endian integer. *)
Fixpoint be_bytes (n : nat) (x : Z) : list Z :=
  match n with
  | O => []
  | S k => be_bytes k (Z.shiftr x 8) ++ [Z.land x 255]
  end.

Definition pad (msg : list Z) : list Z :=
  let len := Z.of_nat (List.length msg) in
  let zeros := Z.to_nat ((55 - len) mod 64) in
  msg ++ [128] ++ repeat 0 zeros ++ be_bytes 8 (8 * len).

Fixpoint words_of_bytes (bs : list Z) : list Z :=
  match bs with
  | b0 :: b1 :: b2 :: b3 :: rest =>
      (b0 * 2 ^ 24 + b1 * 2 ^ 16 + b2 * 2 ^ 8 + b3) :: words_of_bytes rest
  | _ => []
  end.

Fixpoint blocks (fuel : nat) (ws : list Z) : list (list Z) :=
  match fuel with
  | O => []
  | S f =>
      match ws with
      | [] => []
      | _ => firstn 16 ws :: blocks f (skipn 16 ws)
      end
  end.

(** Message schedule: 16 words extended to 64. *)
Definition next_word (w : list Z) : Z :=
  let n := List.length w in
  add32 (add32 (small_sigma1 (nth (n - 2) w 0)) (nth (n - 7) w 0))
        (add32 (small_sigma0 (nth (n - 15) w 0)) (nth (n - 16) w 0)).

Fixpoint schedule (k : nat) (w : list Z) : list Z :=
  match k with
  | O => w
  | S k' => schedule k' (w ++ [next_word w])
  end.

Definition round (st : list Z) (kw : Z * Z) : list Z :=
  match st with
  | [a; b; c; d; e; f; g; h] =>
      let t1 := add32 (add32 (add32 h (big_sigma1 e)) (add32 (ch e f g) (fst kw))) (snd kw) in
      let t2 := add32 (big_sigma0 a) (maj a b c) in
      [add32 t1 t2; a; b; c; add32 d t1; e; f; g]
  | _ => st
  end.

Definition compress (hs : list Z) (block : list Z) : list Z :=
  let w := schedule 48 block in
  let st := fold_left round (combine round_constants w) hs in
  map (fun p => add32 (fst p) (snd p)) (combine hs st).

Definition digest (msg : list Z) : list Z :=
  let p := pad msg in
  let hs := fold_left compress (blocks (List.length p) (words_of_bytes p)) initial_hash in
  flat_map (be_bytes 4) hs.

End Sha256.

(** [.digest('hex')]: two lower-case hexadecimal characters per byte. *)
Definition hex_alphabet : list ascii :=
  list_ascii_of_string "0123456789abcdef"%string.

Definition hex_char (d : Z) : ascii := nth (Z.to_nat d) hex_alphabet "0"%char.

Fixpoint hex (bs : list Z) : string :=
  match bs with
  | [] => EmptyString
  | b :: rest => String (hex_char (b / 16)) (String (hex_char (b mod 16)) (hex rest))
  end.

(** [update(this.masterKey)] hashes the key's UTF-8 bytes; the key is a
    string of bytes here. *)
Definition bytes_of_string (s : string) : list Z :=
  map (fun b => Z.of_N (Byte.to_N b)) (list_byte_of_string s).

(** [crypto.createHash('sha256').update(this.masterKey).digest('hex').substring(0, 16)] *)
Definition keyId_of (masterKey : string) : string :=
  substring 0 16 (hex (Sha256.digest (bytes_of_string masterKey))).

(** [TOKEN_LENGTH] *)
Definition TOKEN_LENGTH : nat := 32.

(** [generateSecureToken()]: [bytes] is the [crypto.randomBytes(TOKEN_LENGTH)]
    result, each byte a value in [0, 256). *)
Definition generateSecureToken (bytes : list Z) : string := hex bytes.

Example sha256_abc :
  hex (Sha256.digest (bytes_of_string "abc"%string)) =
  "ba7816bf8f01cfea414140de5dae2223b00361a396177a9cb410ff61f20015ad"%string.
Proof. vm_compute. reflexivity. Qed.

Example sha256_empty :
  hex (Sha256.digest (bytes_of_string ""%string)) =
  "e3b0c44298fc1c149afbf4c8996fb92427ae41e4649b934ca495991b7852b855"%string.
Proof. vm_compute. reflexivity. Qed.

(* ================================================================== *)
(** ** EncryptionManager *)

(** The library primitives the manager calls, treated as an interface:
    JSON (de)serialisation of the payload (UTF-8 bytes), [pbkdf2Sync],
    the [aes-256-gcm] cipher of [createCipher] / [createDecipher] (seal:
    [setAAD], [update], [final], [getAuthTag]; open: [setAAD],
    [setAuthTag], [update], [final], [None] when [final] rejects the tag),
    and base64 encoding of buffers. *)
Record CryptoLib := {
  json : Type;
  stringify : json -> list byte;
  parse : list byte -> option json;
  pbkdf2 : string -> list byte -> list byte;
  aead_seal : list byte -> list byte -> list byte -> list byte * list byte;
  aead_open : list byte -> list byte -> list byte -> list byte -> option (list byte);
  b64enc : list byte -> string;
  b64dec : string -> list byte
}.

(** What the manager relies on from these primitives: base64 decoding
    inverts encoding, and opening a sealed message under the same key and
    additional data, with its tag, gives the message back. *)
Record CryptoLaws (L : CryptoLib) : Prop := {
  b64_roundtrip : forall b, b64dec L (b64enc L b) = b;
  aead_roundtrip : forall k aad m,
    aead_open L k aad (snd (aead_seal L k aad m)) (fst (aead_seal L k aad m)) = Some m
}.

Record EncryptionManager := { masterKey : string }.

(** The object returned by [encrypt]. *)
Record EncryptedData := {
  encrypted : string;
  salt : string;
  iv : string;
  authTag : string;
  keyId : string
}.

Inductive CryptoError := KeyMismatch | AuthFailure | SyntaxError.

Section Encryption.
Variable L : CryptoLib.

(** [deriveKey(password, salt)] *)
Definition deriveKey (password : string) (salt_buf : list byte) : list byte :=
  pbkdf2 L password salt_buf.

(** [encrypt(data)]; [salt_buf] and [iv_buf] are the two
    [crypto.randomBytes(16)] results. *)
Definition encrypt (em : EncryptionManager) (data : json L)
    (salt_buf iv_buf : list byte) : EncryptedData :=
  let key := deriveKey (masterKey em) salt_buf in
  let sealed := aead_seal L key salt_buf (stringify L data) in
  {| encrypted := b64enc L (fst sealed);
     salt := b64enc L salt_buf;
     iv := b64enc L iv_buf;
     authTag := b64enc L (snd sealed);
     keyId := keyId_of (masterKey em) |}.

(** [decrypt(encryptedData)]: a thrown error is [inr]. *)
Definition decrypt (em : EncryptionManager) (r : EncryptedData) : json L + CryptoError :=
  let currentKeyId := keyId_of (masterKey em) in
  if negb (String.eqb (keyId r) currentKeyId) then inr KeyMismatch
  else
    let key := deriveKey (masterKey em) (b64dec L (salt r)) in
    match aead_open L key (b64dec L (salt r)) (b64dec L (authTag r))
            (b64dec L (encrypted r)) with
    | None => inr AuthFailure
    | Some decrypted =>
        match parse L decrypted with
        | None => inr SyntaxError
        | Some v => inl v
        end
    end.

End Encryption.

Arguments encrypt {L}.
Arguments decrypt {L}.

Definition with_iv (r : EncryptedData) (v : string) : EncryptedData :=
  {| encrypted := encrypted r; salt := salt r; iv := v;
     authTag := authTag r; keyId := keyId r |}.

(** A small instance of the interface, used to exercise the theorems on
    concrete inputs: bytes are their own JSON, the key is the password
    followed by the salt, the cipher is the identity with the key and the
    additional data as tag, and base64 is the byte string itself. *)
Definition toy_open (k aad tag ct : list byte) : option (list byte) :=
  if list_eq_dec Byte.byte_eq_dec tag (k ++ aad) then Some ct else None.

Definition toy_lib : CryptoLib := {|
  json := list byte;
  stringify := fun b => b;
  parse := fun b => Some b;
  pbkdf2 := fun p s => list_byte_of_string p ++ s;
  aead_seal := fun k aad m => (m, k ++ aad);
  aead_open := toy_open;
  b64enc := string_of_list_byte;
  b64dec := list_byte_of_string
|}.

Lemma toy_laws : CryptoLaws toy_lib.
Proof.
  constructor.
  - intro b. apply list_byte_of_string_of_list_byte.
  - intros k aad m. simpl. unfold toy_open.
    destruct (list_eq_dec Byte.byte_eq_dec (k ++ aad) (k ++ aad)); congruence.
Qed.

(* ================================================================== *)
(** ** Tables of the relational store *)

(** Timestamps are milliseconds since the epoch; the application clock
    ([new Date()], [Date.now()]) and the store's [NOW()] read the same clock. *)
Definition Time := Z.

Record User := {
  u_id : Z;
  email : string;
  name : string;
  failed_login_attempts : Z;
  locked_until : option Time;
  last_login : option Time
}.

Record Session := {
  s_id : Z;
  user_id : Z;
  session_token : string;
  refresh_token : string;
  device_info : string;
  s_ip_address : string;
  s_user_agent : string;
  expires_at : Time;
  refresh_expires_at : Time;
  last_used : Time;
  is_active : bool
}.

Record RateLimit := {
  identifier : string;
  endpoint : string;
  requests_count : Z;
  window_start : Time;
  blocked_until : option Time;
  created_at : Time;
  updated_at : Time
}.

Inductive JVal := JStr (s : string) | JNum (z : Z) | JBool (b : bool).

Record AuditEvent := {
  a_user_id : option Z;
  event_type : string;
  a_ip_address : option string;
  a_user_agent : option string;
  success : bool;
  details : list (string * JVal);
  a_created_at : Time
}.

Record DB := {
  users : list User;
  user_sessions : list Session;
  rate_limits : list RateLimit;
  security_audit_log : list AuditEvent;
  next_session_id : Z
}.

Definition set_users (d : DB) (l : list User) : DB :=
  {| users := l; user_sessions := user_sessions d; rate_limits := rate_limits d;
     security_audit_log := security_audit_log d; next_session_id := next_session_id d |}.
Definition set_user_sessions (d : DB) (l : list Session) : DB :=
  {| users := users d; user_sessions := l; rate_limits := rate_limits d;
     security_audit_log := security_audit_log d; next_session_id := next_session_id d |}.
Definition set_rate_limits (d : DB) (l : list RateLimit) : DB :=
  {| users := users d; user_sessions := user_sessions d; rate_limits := l;
     security_audit_log := security_audit_log d; next_session_id := next_session_id d |}.
Definition set_audit_log (d : DB) (l : list AuditEvent) : DB :=
  {| users := users d; user_sessions := user_sessions d; rate_limits := rate_limits d;
     security_audit_log := l; next_session_id := next_session_id d |}.

(* ================================================================== *)
(** ** Queries as a state and error monad *)

Inductive Table := users_t | user_sessions_t | rate_limits_t | security_audit_log_t.

Definition Table_eqb (a b : Table) : bool :=
  match a, b with
  | users_t, users_t | user_sessions_t, user_sessions_t
  | rate_limits_t, rate_limits_t | security_audit_log_t, security_audit_log_t => true
  | _, _ => false
  end.

(** [DbError]: [db.query] rejected; [TypeError]: a property read on
    [undefined]; [AppError]: an [Error] the module throws itself. *)
Inductive Exn := DbError | TypeError | AppError (msg : string).

(** The world: the tables, and the queries issued so far, each with the
    table it touches and whether it failed. *)
Record World := { db : DB; trace : list (Table * bool) }.

(** The storage backend's failures: the [n]-th query of the run, on table
    [t], fails when [fails n t] holds. *)
Definition Oracle := nat -> Table -> bool.

Definition fault_free : Oracle := fun _ _ => false.

Definition M (A : Type) := Oracle -> World -> (A + Exn) * World.

Definition ret {A} (a : A) : M A := fun _ w => (inl a, w).

Definition bind {A B} (m : M A) (k : A -> M B) : M B :=
  fun o w =>
    match m o w with
    | (inl a, w') => k a o w'
    | (inr e, w') => (inr e, w')
    end.

Definition throw {A} (e : Exn) : M A := fun _ w => (inr e, w).

(** [try { m } catch (error) { h }] *)
Definition try_catch {A} (m : M A) (h : Exn -> M A) : M A :=
  fun o w =>
    match m o w with
    | (inl a, w') => (inl a, w')
    | (inr e, w') => h e o w'
    end.

Notation "'let*' x ':=' m 'in' k" := (bind m (fun x => k))
  (at level 200, x name, m at level 100, k at level 200).

(** [await db.query(...)] on table [t]: [q] answers from the tables and
    gives the new tables, or [None] when the statement violates a
    constraint (the store then rejects it and nothing changes). *)
Definition query {A} (t : Table) (q : DB -> option (A * DB)) : M A :=
  fun o w =>
    let n := List.length (trace w) in
    if o n t then (inr DbError, {| db := db w; trace := trace w ++ [(t, true)] |})
    else
      match q (db w) with
      | Some (a, d') => (inl a, {| db := d'; trace := trace w ++ [(t, false)] |})
      | None => (inr DbError, {| db := db w; trace := trace w ++ [(t, false)] |})
      end.

(* ================================================================== *)
(** ** Security audit logging *)

(** [logSecurityEvent(userId, eventType, ipAddress, userAgent, success, details)] *)
Definition logSecurityEvent (userId : option Z) (eventType : string)
    (ipAddress userAgent : option string) (success_ : bool)
    (details_ : list (string * JVal)) (now : Time) : M unit :=
  try_catch
    (query security_audit_log_t (fun d =>
       Some (tt, set_audit_log d (security_audit_log d ++
         [{| a_user_id := userId; event_type := eventType; a_ip_address := ipAddress;
             a_user_agent := userAgent; success := success_; details := details_;
             a_created_at := now |}]))))
    (fun _ => ret tt).

(* ================================================================== *)
(** ** Rate limiting *)

Record Limit := { requests : Z; window : Z }.

(** [RATE_LIMITS[endpoint]] for the four configured endpoints (the
    properties inherited from [Object.prototype] are not modelled). *)
Definition RATE_LIMITS (ep : string) : option Limit :=
  if String.eqb ep "login" then Some {| requests := 5; window := 15 * 60 * 1000 |}
  else if String.eqb ep "register" then Some {| requests := 3; window := 60 * 60 * 1000 |}
  else if String.eqb ep "api" then Some {| requests := 100; window := 60 * 60 * 1000 |}
  else if String.eqb ep "password_reset" then Some {| requests := 3; window := 60 * 60 * 1000 |}
  else None.

Definition rl_matches (ident ep : string) (r : RateLimit) : bool :=
  String.eqb (identifier r) ident && String.eqb (endpoint r) ep.

(** [ORDER BY created_at DESC LIMIT 1] *)
Fixpoint latest (rows : list RateLimit) : option RateLimit :=
  match rows with
  | [] => None
  | r :: rs =>
      match latest rs with
      | Some r' => if created_at r <? created_at r' then Some r' else Some r
      | None => Some r
      end
  end.

Definition rl_rows (d : DB) (ident ep : string) : list RateLimit :=
  filter (rl_matches ident ep) (rate_limits d).

(** [UPDATE rate_limits SET ... WHERE identifier = $i AND endpoint = $e] *)
Definition update_rl (ident ep : string) (f : RateLimit -> RateLimit) (d : DB) : DB :=
  set_rate_limits d
    (map (fun r => if rl_matches ident ep r then f r else r) (rate_limits d)).

Definition rl_set_blocked (until : Time) (r : RateLimit) : RateLimit :=
  {| identifier := identifier r; endpoint := endpoint r; requests_count := requests_count r;
     window_start := window_start r; blocked_until := Some until;
     created_at := created_at r; updated_at := updated_at r |}.

Definition rl_increment (now : Time) (r : RateLimit) : RateLimit :=
  {| identifier := identifier r; endpoint := endpoint r; requests_count := requests_count r + 1;
     window_start := window_start r; blocked_until := blocked_until r;
     created_at := created_at r; updated_at := now |}.

Definition rl_reset (now : Time) (r : RateLimit) : RateLimit :=
  {| identifier := identifier r; endpoint := endpoint r; requests_count := 1;
     window_start := now; blocked_until := None;
     created_at := created_at r; updated_at := now |}.

Definition is_future (t : option Time) (now : Time) : bool :=
  match t with Some u => now <? u | None => false end.

(** [checkRateLimit(identifier, endpoint, clientIp)] at time [now]. *)
Definition checkRateLimit (ident ep : string) (clientIp : option string) (now : Time) : M bool :=
  match RATE_LIMITS ep with
  | None => ret true
  | Some limit =>
      let windowStart := now - window limit in
      try_catch
        (let* row := query rate_limits_t (fun d => Some (latest (rl_rows d ident ep), d)) in
         match row with
         | Some r =>
             if is_future (blocked_until r) now then ret false
             else if windowStart <? window_start r then
               if requests limit <=? requests_count r then
                 let* _ := query rate_limits_t (fun d =>
                   Some (tt, update_rl ident ep (rl_set_blocked (now + window limit)) d)) in
                 let* _ := logSecurityEvent None "rate_limit_exceeded" clientIp None false
                   [("endpoint", JStr ep); ("identifier", JStr ident);
                    ("requests_count", JNum (requests_count r))] now in
                 ret false
               else
                 let* _ := query rate_limits_t (fun d =>
                   Some (tt, update_rl ident ep (rl_increment now) d)) in
                 ret true
             else
               let* _ := query rate_limits_t (fun d =>
                 Some (tt, update_rl ident ep (rl_reset now) d)) in
               ret true
         | None =>
             let* _ := query rate_limits_t (fun d =>
               Some (tt, set_rate_limits d (rate_limits d ++
                 [{| identifier := ident; endpoint := ep; requests_count := 1;
                     window_start := now; blocked_until := None;
                     created_at := now; updated_at := now |}]))) in
             ret true
         end)
        (fun _ => ret true)
  end.

(* ================================================================== *)
(** ** Account lockout *)

Record LockoutPolicy := { threshold : Z; duration : Z }.

Definition ACCOUNT_LOCKOUT : LockoutPolicy :=
  {| threshold := 5; duration := 30 * 60 * 1000 |}.

Fixpoint find_user (uid : Z) (l : list User) : option User :=
  match l with
  | [] => None
  | u :: us => if u_id u =? uid then Some u else find_user uid us
  end.

(** [UPDATE users SET ... WHERE id = $1] *)
Definition update_user (uid : Z) (f : User -> User) (d : DB) : DB :=
  set_users d (map (fun u => if u_id u =? uid then f u else u) (users d)).

Definition u_unlock (u : User) : User :=
  {| u_id := u_id u; email := email u; name := name u; failed_login_attempts := 0;
     locked_until := None; last_login := last_login u |}.

(** [failed_login_attempts = failed_login_attempts + 1, locked_until = CASE
    WHEN failed_login_attempts + 1 >= $1 THEN NOW() + duration ELSE locked_until END] *)
Definition u_fail (now : Time) (u : User) : User :=
  {| u_id := u_id u; email := email u; name := name u;
     failed_login_attempts := failed_login_attempts u + 1;
     locked_until :=
       if threshold ACCOUNT_LOCKOUT <=? failed_login_attempts u + 1
       then Some (now + duration ACCOUNT_LOCKOUT) else locked_until u;
     last_login := last_login u |}.

Definition u_login (now : Time) (u : User) : User :=
  {| u_id := u_id u; email := email u; name := name u; failed_login_attempts := 0;
     locked_until := None; last_login := Some now |}.

(** [checkAccountLockout(userId)]; [now1] and [now2] are the two
    [new Date()] reads of the two tests. *)
Definition checkAccountLockout (userId : Z) (now1 now2 : Time) : M bool :=
  try_catch
    (let* row := query users_t (fun d => Some (find_user userId (users d), d)) in
     match row with
     | None => ret false
     | Some u =>
         if is_future (locked_until u) now1 then ret true
         else
           match locked_until u with
           | Some lu =>
               if lu <=? now2 then
                 let* _ := query users_t (fun d => Some (tt, update_user userId u_unlock d)) in
                 ret false
               else ret false
           | None => ret false
           end
     end)
    (fun _ => ret false).

(** [!!locked_until] *)
Definition isSome {A} (o : option A) : bool := match o with Some _ => true | None => false end.

Record FailedLoginResult := {
  attempts : Z;
  locked : bool;
  lockoutExpires : option Time
}.

(** [handleFailedLogin(userId, ipAddress, userAgent)]; the [RETURNING]
    clause gives the updated rows, and [result.rows[0]] of no row throws. *)
Definition handleFailedLogin (userId : Z) (ipAddress userAgent : option string) (now : Time)
    : M FailedLoginResult :=
  try_catch
    (let* rows := query users_t (fun d =>
       let d' := update_user userId (u_fail now) d in
       Some (filter (fun u => u_id u =? userId) (users d'), d')) in
     match rows with
     | [] => throw TypeError
     | u :: _ =>
         let* _ := logSecurityEvent (Some userId) "failed_login" ipAddress userAgent false
           [("attempts", JNum (failed_login_attempts u));
            ("locked", JBool (isSome (locked_until u)))] now in
         ret {| attempts := failed_login_attempts u; locked := isSome (locked_until u);
                lockoutExpires := locked_until u |}
     end)
    (fun _ => ret {| attempts := 0; locked := false; lockoutExpires := None |}).

(** [handleSuccessfulLogin(userId, ipAddress, userAgent)] *)
Definition handleSuccessfulLogin (userId : Z) (ipAddress userAgent : option string) (now : Time)
    : M unit :=
  try_catch
    (let* _ := query users_t (fun d => Some (tt, update_user userId (u_login now) d)) in
     logSecurityEvent (Some userId) "login" ipAddress userAgent true [] now)
    (fun _ => ret tt).

(* ================================================================== *)
(** ** Session management *)

(** Access and refresh lifetimes of [createSession] and [refreshSession]. *)
Definition ACCESS_TTL : Z := 24 * 60 * 60 * 1000.
Definition REFRESH_TTL : Z := 7 * 24 * 60 * 60 * 1000.

(** The [UNIQUE] constraints on [session_token] and [refresh_token]: a
    token written to row [sid] must not be held by another row. *)
Definition token_free (sid : Z) (tok : string) (sel : Session -> string) (l : list Session) : bool :=
  forallb (fun s => (s_id s =? sid) || negb (String.eqb (sel s) tok)) l.

Record SessionInfo := {
  sessionId : Z;
  si_sessionToken : string;
  si_refreshToken : string;
  si_expiresAt : Time;
  si_refreshExpiresAt : Time
}.

(** [createSession(userId, deviceInfo, ipAddress, userAgent)]; the two
    [generateSecureToken()] results are [sessionToken] and [refreshToken],
    and [t1], [t2] are the two [Date.now()] reads. The insert fails on a
    token already stored (the [UNIQUE] constraints). *)
Definition createSession (userId : Z) (deviceInfo ipAddress userAgent : string)
    (sessionToken refreshToken : string) (t1 t2 : Time) : M SessionInfo :=
  try_catch
    (let expiresAt := t1 + ACCESS_TTL in
     let refreshExpiresAt := t2 + REFRESH_TTL in
     let* sid := query user_sessions_t (fun d =>
       let sid := next_session_id d in
       if token_free sid sessionToken session_token (user_sessions d)
          && token_free sid refreshToken refresh_token (user_sessions d)
       then
         Some (sid,
           {| users := users d;
              user_sessions := user_sessions d ++
                [{| s_id := sid; user_id := userId; session_token := sessionToken;
                    refresh_token := refreshToken; device_info := deviceInfo;
                    s_ip_address := ipAddress; s_user_agent := userAgent;
                    expires_at := expiresAt; refresh_expires_at := refreshExpiresAt;
                    last_used := t1; is_active := true |}];
              rate_limits := rate_limits d;
              security_audit_log := security_audit_log d;
              next_session_id := sid + 1 |})
       else None) in
     ret {| sessionId := sid; si_sessionToken := sessionToken; si_refreshToken := refreshToken;
            si_expiresAt := expiresAt; si_refreshExpiresAt := refreshExpiresAt |})
    (fun _ => throw (AppError "Failed to create session")).

Record SessionContext := {
  c_sessionId : Z;
  c_userId : Z;
  c_email : string;
  c_name : string;
  c_expiresAt : Time;
  c_refreshExpiresAt : Time
}.

(** [FROM user_sessions s JOIN users u ON s.user_id = u.id WHERE
    s.session_token = $1 AND s.is_active = true AND s.expires_at > NOW()]:
    the first joined row. *)
Fixpoint select_valid (tok : string) (now : Time) (us : list User) (l : list Session)
    : option (Session * User) :=
  match l with
  | [] => None
  | s :: rest =>
      if String.eqb (session_token s) tok && is_active s && (now <? expires_at s) then
        match find_user (user_id s) us with
        | Some u => Some (s, u)
        | None => select_valid tok now us rest
        end
      else select_valid tok now us rest
  end.

(** [UPDATE user_sessions SET ... WHERE id = $n] *)
Definition update_session (sid : Z) (f : Session -> Session) (d : DB) : DB :=
  set_user_sessions d (map (fun s => if s_id s =? sid then f s else s) (user_sessions d)).

Definition s_touch (now : Time) (s : Session) : Session :=
  {| s_id := s_id s; user_id := user_id s; session_token := session_token s;
     refresh_token := refresh_token s; device_info := device_info s;
     s_ip_address := s_ip_address s; s_user_agent := s_user_agent s;
     expires_at := expires_at s; refresh_expires_at := refresh_expires_at s;
     last_used := now; is_active := is_active s |}.

Definition s_deactivate (s : Session) : Session :=
  {| s_id := s_id s; user_id := user_id s; session_token := session_token s;
     refresh_token := refresh_token s; device_info := device_info s;
     s_ip_address := s_ip_address s; s_user_agent := s_user_agent s;
     expires_at := expires_at s; refresh_expires_at := refresh_expires_at s;
     last_used := last_used s; is_active := false |}.

Definition s_rotate (tok rtok : string) (exp rexp now : Time) (s : Session) : Session :=
  {| s_id := s_id s; user_id := user_id s; session_token := tok;
     refresh_token := rtok; device_info := device_info s;
     s_ip_address := s_ip_address s; s_user_agent := s_user_agent s;
     expires_at := exp; refresh_expires_at := rexp;
     last_used := now; is_active := is_active s |}.

(** [validateSession(sessionToken)] at time [now]. *)
Definition validateSession (sessionToken : string) (now : Time) : M (option SessionContext) :=
  try_catch
    (let* row := query user_sessions_t (fun d =>
       Some (select_valid sessionToken now (users d) (user_sessions d), d)) in
     match row with
     | None => ret None
     | Some (s, u) =>
         let* _ := query user_sessions_t (fun d => Some (tt, update_session (s_id s) (s_touch now) d)) in
         ret (Some {| c_sessionId := s_id s; c_userId := user_id s; c_email := email u;
                      c_name := name u; c_expiresAt := expires_at s;
                      c_refreshExpiresAt := refresh_expires_at s |})
     end)
    (fun _ => ret None).

Fixpoint select_refreshable (rtok : string) (now : Time) (l : list Session) : option Session :=
  match l with
  | [] => None
  | s :: rest =>
      if String.eqb (refresh_token s) rtok && is_active s && (now <? refresh_expires_at s)
      then Some s else select_refreshable rtok now rest
  end.

Record RefreshedSession := {
  r_sessionId : Z;
  r_userId : Z;
  r_sessionToken : string;
  r_refreshToken : string;
  r_expiresAt : Time;
  r_refreshExpiresAt : Time
}.

(** [refreshSession(refreshToken)]: [now] is the store's [NOW()], [t1] and
    [t2] the two [Date.now()] reads, [newSessionToken] and
    [newRefreshToken] the two [generateSecureToken()] results. *)
Definition refreshSession (refreshToken : string) (now t1 t2 : Time)
    (newSessionToken newRefreshToken : string) : M (option RefreshedSession) :=
  try_catch
    (let* row := query user_sessions_t (fun d =>
       Some (select_refreshable refreshToken now (user_sessions d), d)) in
     match row with
     | None => ret None
     | Some s =>
         let newExpiresAt := t1 + ACCESS_TTL in
         let newRefreshExpiresAt := t2 + REFRESH_TTL in
         let* _ := query user_sessions_t (fun d =>
           if token_free (s_id s) newSessionToken session_token (user_sessions d)
              && token_free (s_id s) newRefreshToken refresh_token (user_sessions d)
           then Some (tt, update_session (s_id s)
                  (s_rotate newSessionToken newRefreshToken newExpiresAt newRefreshExpiresAt now) d)
           else None) in
         ret (Some {| r_sessionId := s_id s; r_userId := user_id s;
                      r_sessionToken := newSessionToken; r_refreshToken := newRefreshToken;
                      r_expiresAt := newExpiresAt; r_refreshExpiresAt := newRefreshExpiresAt |})
     end)
    (fun _ => ret None).

(** [revokeSession(sessionToken)] *)
Definition revokeSession (sessionToken : string) : M bool :=
  try_catch
    (let* _ := query user_sessions_t (fun d =>
       Some (tt, set_user_sessions d (map (fun s =>
         if String.eqb (session_token s) sessionToken then s_deactivate s else s)
         (user_sessions d)))) in
     ret true)
    (fun _ => ret false).

(** [revokeAllUserSessions(userId)] *)
Definition revokeAllUserSessions (userId : Z) : M bool :=
  try_catch
    (let* _ := query user_sessions_t (fun d =>
       Some (tt, set_user_sessions d (map (fun s =>
         if user_id s =? userId then s_deactivate s else s) (user_sessions d)))) in
     ret true)
    (fun _ => ret false).

(* ================================================================== *)
(** ** Encrypted data storage *)

(** A row of [encrypted_data]; the [encrypted_data] column holds
    [JSON.stringify] of the record [encrypt] returns, an object of
    strings, which [JSON.parse] gives back as it was: the record is
    stored as it is. *)
Record EncRow := {
  ed_id : Z;
  ed_user_id : Z;
  data_type : string;
  encrypted_data : EncryptedData;
  encryption_key_id : string;
  ed_created_at : Time
}.

(** The [encrypted_data] table and its id sequence. *)
Record EncStore := { enc_rows : list EncRow; next_enc_id : Z }.

(** [ORDER BY created_at DESC LIMIT 1] *)
Fixpoint latest_enc (rows : list EncRow) : option EncRow :=
  match rows with
  | [] => None
  | r :: rs =>
      match latest_enc rs with
      | Some r' => if ed_created_at r <? ed_created_at r' then Some r' else Some r
      | None => Some r
      end
  end.

(** [storeEncryptedData(userId, dataType, data)]: [salt_buf] and [iv_buf]
    are the random bytes of [encrypt], [now] the store's [NOW()], and
    [fails] whether the store rejects the insert (a constraint, a
    backend failure). *)
Definition storeEncryptedData {L : CryptoLib} (em : EncryptionManager) (userId : Z)
    (dataType : string) (data : json L) (salt_buf iv_buf : list byte) (now : Time)
    (fails : bool) (st : EncStore) : (Z + Exn) * EncStore :=
  let ed := encrypt em data salt_buf iv_buf in
  if fails then (inr (AppError "Failed to store encrypted data"), st)
  else
    let id := next_enc_id st in
    (inl id, {| enc_rows := enc_rows st ++
                  [{| ed_id := id; ed_user_id := userId; data_type := dataType;
                      encrypted_data := ed; encryption_key_id := keyId ed;
                      ed_created_at := now |}];
                next_enc_id := id + 1 |}).

(** [retrieveEncryptedData(userId, dataType, encryptedDataId)]: [None] is
    the default [null]; an id is used only when truthy, that is non-zero.
    [fails] is a failure of the query; every error, of the query or of
    [decrypt], is rethrown as one message. *)
Definition retrieveEncryptedData {L : CryptoLib} (em : EncryptionManager) (userId : Z)
    (dataType : string) (encryptedDataId : option Z) (fails : bool) (st : EncStore)
    : option (json L) + Exn :=
  if fails then inr (AppError "Failed to retrieve encrypted data")
  else
    let by_type := latest_enc (filter (fun r => (ed_user_id r =? userId) &&
                                                 String.eqb (data_type r) dataType) (enc_rows st)) in
    let row :=
      match encryptedDataId with
      | Some i =>
          if i =? 0 then by_type
          else hd_error (filter (fun r => (ed_id r =? i) && (ed_user_id r =? userId)) (enc_rows st))
      | None => by_type
      end in
    match row with
    | None => inl None
    | Some r =>
        match decrypt em (encrypted_data r) with
        | inl v => inl (Some v)
        | inr _ => inr (AppError "Failed to retrieve encrypted data")
        end
    end.

(* ================================================================== *)
(** ** Input validation and sanitization *)

(** A JavaScript string as its UTF-16 code units. *)
Definition units (s : string) : list Z :=
  map (fun a => Z.of_nat (nat_of_ascii a)) (list_ascii_of_string s).

Definition in_range (lo hi c : Z) : bool := (lo <=? c) && (c <=? hi).

(** [\s], and the characters [trim] removes: WhiteSpace and
    LineTerminator. *)
Definition is_js_space (c : Z) : bool :=
  in_range 9 13 c || (c =? 32) || (c =? 160) || (c =? 5760) || in_range 8192 8202 c ||
  (c =? 8232) || (c =? 8233) || (c =? 8239) || (c =? 8287) || (c =? 12288) || (c =? 65279).

(** What [.] does not match. *)
Definition is_line_terminator (c : Z) : bool :=
  (c =? 10) || (c =? 13) || (c =? 8232) || (c =? 8233).

Definition is_lower (c : Z) : bool := in_range 97 122 c.
Definition is_upper (c : Z) : bool := in_range 65 90 c.
Definition is_digit (c : Z) : bool := in_range 48 57 c.
(** [[@$!%*?&]] *)
Definition is_special (c : Z) : bool := existsb (Z.eqb c) [64; 36; 33; 37; 42; 63; 38].

(** A regular expression of the form [^(?=L1)...(?=Ln)P1...Pm$] where
    every [P] is a character class with a repetition [{lo,hi}] and every
    lookahead [Li] is such a sequence too. [RegExp.prototype.test] is true
    when some way of splitting the input matches: no capture is read, so
    the backtracking order does not change the answer. *)
Record Piece := { cls : Z -> bool; lo : nat; hi : option nat }.
Record AnchoredRegex := { lookaheads : list (list Piece); body : list Piece }.

Definition hi_ok (p : Piece) (n : nat) : bool :=
  match hi p with Some h => Nat.leb n h | None => true end.
Definition hi_lt (p : Piece) (n : nat) : bool :=
  match hi p with Some h => Nat.ltb n h | None => true end.

(** [p] having matched [n] characters, match the rest of [p] then [k]. *)
Fixpoint match_piece (p : Piece) (k : list Z -> bool) (n : nat) (s : list Z) : bool :=
  (Nat.leb (lo p) n && hi_ok p n && k s) ||
  match s with
  | c :: s' => hi_lt p n && cls p c && match_piece p k (S n) s'
  | [] => false
  end.

(** [anchored]: the sequence is followed by [$]. *)
Fixpoint match_pieces (ps : list Piece) (anchored : bool) (s : list Z) : bool :=
  match ps with
  | [] => if anchored then match s with [] => true | _ :: _ => false end else true
  | p :: rest => match_piece p (match_pieces rest anchored) 0 s
  end.

Definition regex_test (r : AnchoredRegex) (s : list Z) : bool :=
  forallb (fun la => match_pieces la false s) (lookaheads r) && match_pieces (body r) true s.

Definition one (k : Z -> bool) : Piece := {| cls := k; lo := 1; hi := Some 1%nat |}.
Definition plus (k : Z -> bool) : Piece := {| cls := k; lo := 1; hi := None |}.
Definition star (k : Z -> bool) : Piece := {| cls := k; lo := 0; hi := None |}.

(** [[^\s@]] *)
Definition not_space_at (c : Z) : bool := negb (is_js_space c) && negb (c =? 64).

(** [/^[^\s@]+@[^\s@]+\.[^\s@]+$/] *)
Definition emailRegex : AnchoredRegex :=
  {| lookaheads := [];
     body := [plus not_space_at; one (Z.eqb 64); plus not_space_at; one (Z.eqb 46);
              plus not_space_at] |}.

(** [[A-Za-z\d@$!%*?&]] *)
Definition password_char (c : Z) : bool :=
  is_upper c || is_lower c || is_digit c || is_special c.

Definition any_char (c : Z) : bool := negb (is_line_terminator c).

(** [/^(?=.*[a-z])(?=.*[A-Z])(?=.*\d)(?=.*[@$!%*?&])[A-Za-z\d@$!%*?&]{8,}$/] *)
Definition passwordRegex : AnchoredRegex :=
  {| lookaheads := [[star any_char; one is_lower]; [star any_char; one is_upper];
                    [star any_char; one is_digit]; [star any_char; one is_special]];
     body := [{| cls := password_char; lo := 8; hi := None |}] |}.

Definition validateEmail (email : list Z) : bool := regex_test emailRegex email.
Definition validatePassword (password : list Z) : bool := regex_test passwordRegex password.

(** JavaScript values, numbers as integers; an object as its own
    properties, keys distinct. *)
#[warnings="-register-all"]
Inductive JSValue :=
| JSUndefined
| JSNull
| JSBool (b : bool)
| JSNumber (z : Z)
| JSString (s : list Z)
| JSObject (fields : list (string * JSValue)).

Fixpoint trim_start (s : list Z) : list Z :=
  match s with
  | c :: s' => if is_js_space c then trim_start s' else s
  | [] => []
  end.

(** [String.prototype.trim] *)
Definition trim (s : list Z) : list Z := rev (trim_start (rev (trim_start s))).

(** [.replace(/[<>]/g, '')] *)
Definition strip_angles (s : list Z) : list Z :=
  filter (fun c => negb ((c =? 60) || (c =? 62))) s.

(** [sanitizeInput(input)] *)
Definition sanitizeInput (input : JSValue) : JSValue :=
  match input with
  | JSString s => JSString (strip_angles (trim s))
  | _ => input
  end.

(* ================================================================== *)
(** ** Client information *)

Fixpoint assoc_get (k : string) (l : list (string * JSValue)) : JSValue :=
  match l with
  | [] => JSUndefined
  | (k', v) :: rest => if String.eqb k k' then v else assoc_get k rest
  end.

(** [v[k]]: reading a property of [undefined] or [null] throws; the
    primitives have none of the properties read here. *)
Definition get_prop (v : JSValue) (k : string) : JSValue + Exn :=
  match v with
  | JSUndefined | JSNull => inr TypeError
  | JSObject fs => inl (assoc_get k fs)
  | _ => inl JSUndefined
  end.

(** [v?.k] *)
Definition opt_get (v : JSValue) (k : string) : JSValue :=
  match v with
  | JSObject fs => assoc_get k fs
  | _ => JSUndefined
  end.

Definition truthy (v : JSValue) : bool :=
  match v with
  | JSUndefined | JSNull => false
  | JSBool b => b
  | JSNumber z => negb (z =? 0)
  | JSString s => match s with [] => false | _ :: _ => true end
  | JSObject _ => true
  end.

(** [a || b] *)
Definition js_or (a b : JSValue) : JSValue := if truthy a then a else b.

(** [getClientInfo(event)]: the client IP and the user agent. [headers] is
    never [undefined] or [null], so [headers[...]] cannot throw and reads
    like [headers?.[...]]. *)
Definition getClientInfo (event : JSValue) : (JSValue * JSValue) + Exn :=
  match get_prop event "headers" with
  | inr e => inr e
  | inl h =>
      let headers := js_or h (JSObject []) in
      let clientIp :=
        js_or (opt_get headers "x-forwarded-for")
          (js_or (opt_get headers "x-real-ip")
             (js_or (opt_get (opt_get (opt_get event "requestContext") "identity") "sourceIp")
                (JSString (units "127.0.0.1")))) in
      let userAgent := js_or (opt_get headers "user-agent") (JSString (units "Unknown")) in
      inl (clientIp, userAgent)
  end.

(* ================================================================== *)
(** ** Request routing of the authentication handler *)

(** [s.includes(sub)] *)
Fixpoint includes (sub s : string) : bool :=
  String.prefix sub s ||
  match s with
  | EmptyString => false
  | String _ s' => includes sub s'
  end.

Inductive Route :=
| Preflight | Register | Login | Refresh | Logout | LogoutAll | ForgotPassword
| ResetPassword | ChangePassword | Demo | LinkedInAuth | GetProfile | NotFound.

(** The dispatch of the handler's [main] on [httpMethod] and [path]. *)
Definition route (httpMethod path : string) : Route :=
  let post := String.eqb httpMethod "POST" in
  if String.eqb httpMethod "OPTIONS" then Preflight
  else if post && includes "/register" path then Register
  else if post && includes "/login" path then Login
  else if post && includes "/refresh" path then Refresh
  else if post && includes "/logout" path then Logout
  else if post && includes "/logout-all" path then LogoutAll
  else if post && includes "/forgot-password" path then ForgotPassword
  else if post && includes "/reset-password" path then ResetPassword
  else if post && includes "/change-password" path then ChangePassword
  else if post && includes "/demo" path then Demo
  else if post && includes "/user" path then LinkedInAuth
  else if String.eqb httpMethod "GET" && includes "/me" path then GetProfile
  else NotFound.

(* ================================================================== *)
(** ** Log-out handler *)

(** The body of a response: [JSON.stringify({ error })] or
    [JSON.stringify({ message })]. *)
Inductive Body := ErrorBody (error : string) | MessageBody (message : string).

Record Response := { statusCode : Z; body_of : Body }.

(** [error.message]; the messages of the driver's errors are not modelled. *)
Definition exn_message (e : Exn) : string :=
  match e with
  | AppError m => m
  | DbError => "database error"
  | TypeError => "type error"
  end.

(** [a || b] on header values, [None] being [undefined]. *)
Definition header_or (a b : option string) : option string :=
  match a with
  | Some s => if String.eqb s "" then b else a
  | None => b
  end.

(** [handleLogout(event, clientIp, userAgent, headers)]: [authUpper] and
    [authLower] are [event.headers?.Authorization] and
    [event.headers?.authorization], [now] the clock of the calls. *)
Definition handleLogout (authUpper authLower : option string) (clientIp userAgent : option string)
    (now : Time) : M Response :=
  match header_or authUpper authLower with
  | None => ret {| statusCode := 400; body_of := ErrorBody "Session token required" |}
  | Some authHeader =>
      if negb (String.prefix "Bearer " authHeader)
      then ret {| statusCode := 400; body_of := ErrorBody "Session token required" |}
      else
        let sessionToken := substring 7 (String.length authHeader - 7) authHeader in
        try_catch
          (let* session := validateSession sessionToken now in
           let* _ := revokeSession sessionToken in
           let* _ := match session with
                     | Some c => logSecurityEvent (Some (c_userId c)) "logout" clientIp userAgent true [] now
                     | None => ret tt
                     end in
           ret {| statusCode := 200; body_of := MessageBody "Logged out successfully" |})
          (fun e =>
             let* _ := logSecurityEvent None "logout_error" clientIp userAgent false
                         [("error", JStr (exn_message e))] now in
             throw e)
  end.

(* ================================================================== *)
(** * Scenarios *)

(** An event behind a proxy that sets [x-forwarded-for]. *)
Definition proxied_event : JSValue :=
  JSObject [("headers", JSObject [("x-forwarded-for", JSString (units "203.0.113.7"));
                                  ("x-real-ip", JSString (units "10.0.0.1"))]);
            ("requestContext", JSObject [("identity", JSObject [("sourceIp", JSString (units "10.0.0.2"))])])].

Definition sample_payload : list byte := list_byte_of_string "[1,2,3]".

(** An empty store, and the record of user 1 stored in it. *)
Definition empty_enc_store : EncStore := {| enc_rows := []; next_enc_id := 1 |}.

Definition stored_once : EncStore :=
  snd (storeEncryptedData (L := toy_lib) {| masterKey := "master" |} 1 "profile" sample_payload
         (list_byte_of_string "salt") (list_byte_of_string "iv") 100 false empty_enc_store).

(** Successive calls, each seeing the tables the previous one left. *)
Fixpoint seq_calls {A} (ms : list (M A)) : M (list A) :=
  match ms with
  | [] => ret []
  | m :: rest => let* a := m in let* r := seq_calls rest in ret (a :: r)
  end.

(** A run against a storage backend that answers every query. *)
Definition run {A} (m : M A) (w : World) : (A + Exn) * World := m fault_free w.

Definition fail_calls (uid : Z) (ip ua : option string) (ts : list Time) : M (list FailedLoginResult) :=
  seq_calls (map (handleFailedLogin uid ip ua) ts).

Definition lockout_checks (uid : Z) (cs : list (Time * Time)) : M (list bool) :=
  seq_calls (map (fun c => checkAccountLockout uid (fst c) (snd c)) cs).

Definition rate_calls (ident ep : string) (ip : option string) (ts : list Time) : M (list bool) :=
  seq_calls (map (checkRateLimit ident ep ip) ts).

(** The effect of one call on the single row of the pair: the answer and
    the row afterwards. *)
Definition rl_step (lim : Limit) (now : Time) (r : RateLimit) : bool * RateLimit :=
  if is_future (blocked_until r) now then (false, r)
  else if now - window lim <? window_start r then
    if requests lim <=? requests_count r then (false, rl_set_blocked (now + window lim) r)
    else (true, rl_increment now r)
  else (true, rl_reset now r).

Definition rl_fresh (ident ep : string) (now : Time) : RateLimit :=
  {| identifier := ident; endpoint := ep; requests_count := 1; window_start := now;
     blocked_until := None; created_at := now; updated_at := now |}.

(** A client that has used up its login window: five requests in the
    window opened at time 0. *)
Definition exhausted_login_row : RateLimit :=
  {| identifier := "1.2.3.4"; endpoint := "login"; requests_count := 5; window_start := 0;
     blocked_until := None; created_at := 0; updated_at := 0 |}.

Definition exhausted_world : World :=
  {| db := {| users := []; user_sessions := []; rate_limits := [exhausted_login_row];
              security_audit_log := []; next_session_id := 1 |};
     trace := [] |}.

(** A backend whose audit-log table rejects every insert and which answers
    every other query. *)
Definition audit_down : Oracle := fun _ t => Table_eqb t security_audit_log_t.

(** Two backends that answer every query alike except those on the audit
    log. *)
Definition agree_off_audit (o1 o2 : Oracle) : Prop :=
  forall n t, t <> security_audit_log_t -> o1 n t = o2 n t.

(** Two users, each with one session opened at time 0. *)
Definition sample_user (uid : Z) (mail : string) : User :=
  {| u_id := uid; email := mail; name := "user"; failed_login_attempts := 0;
     locked_until := None; last_login := None |}.

Definition sample_session (sid uid : Z) (tok rtok : string) : Session :=
  {| s_id := sid; user_id := uid; session_token := tok; refresh_token := rtok;
     device_info := "{}"; s_ip_address := "10.0.0.1"; s_user_agent := "agent";
     expires_at := ACCESS_TTL; refresh_expires_at := REFRESH_TTL;
     last_used := 0; is_active := true |}.

Definition session_world : World :=
  {| db := {| users := [sample_user 1 "a@example.org"; sample_user 2 "b@example.org"];
              user_sessions := [sample_session 1 1 "tokA" "refA";
                                sample_session 2 2 "tokB" "refB"];
              rate_limits := []; security_audit_log := []; next_session_id := 3 |};
     trace := [] |}.

(** A user whose lock has run out but is still recorded. *)
Definition stale_lock_world : World :=
  {| db := {| users := [{| u_id := 7; email := "c@example.org"; name := "user";
                           failed_login_attempts := 0; locked_until := Some 0;
                           last_login := None |}];
              user_sessions := []; rate_limits := []; security_audit_log := [];
              next_session_id := 1 |};
     trace := [] |}.

(** The session operations a client can request, with the values each
    call reads from the clock and the token generator. *)
Inductive SessionOp :=
| OpCreate (userId : Z) (deviceInfo ipAddress userAgent : string)
    (sessionToken refreshToken : string) (t1 t2 : Time)
| OpValidate (sessionToken : string) (now : Time)
| OpRefresh (refreshToken : string) (now t1 t2 : Time) (newSessionToken newRefreshToken : string)
| OpRevoke (sessionToken : string)
| OpRevokeAll (userId : Z).

Definition exec_op (op : SessionOp) : M unit :=
  match op with
  | OpCreate uid dev ip ua tok rtok t1 t2 =>
      let* _ := createSession uid dev ip ua tok rtok t1 t2 in ret tt
  | OpValidate tok now => let* _ := validateSession tok now in ret tt
  | OpRefresh rt now t1 t2 nt nrt => let* _ := refreshSession rt now t1 t2 nt nrt in ret tt
  | OpRevoke tok => let* _ := revokeSession tok in ret tt
  | OpRevokeAll uid => let* _ := revokeAllUserSessions uid in ret tt
  end.

(** Requests served one after the other, each on the tables the previous
    one left, whether it succeeded or threw. *)
Fixpoint exec_ops (ops : list SessionOp) : M unit :=
  fun o w =>
    match ops with
    | [] => (inl tt, w)
    | op :: rest => exec_ops rest o (snd (exec_op op o w))
    end.

(** The two [Date.now()] reads of one call come in order. *)
Definition clock_ok (op : SessionOp) : Prop :=
  match op with
  | OpCreate _ _ _ _ _ _ t1 t2 => t1 <= t2
  | OpRefresh _ _ t1 t2 _ _ => t1 <= t2
  | _ => True
  end.

Definition refresh_outlives (s : Session) : Prop := expires_at s < refresh_expires_at s.

(* ================================================================== *)
(** * Properties *)

(** ** Key fingerprints *)

Lemma hex_char_in (d : Z) : In (hex_char d) hex_alphabet.
Proof.
  unfold hex_char.
  destruct (nth_in_or_default (Z.to_nat d) hex_alphabet "0"%char) as [H | H].
  - exact H.
  - rewrite H. unfold hex_alphabet. simpl. left. reflexivity.
Qed.

Lemma hex_chars_in (bs : list Z) :
  Forall (fun c => In c hex_alphabet) (list_ascii_of_string (hex bs)).
Proof.
  induction bs as [| b bs IH]; simpl.
  - constructor.
  - constructor; [apply hex_char_in |].
    constructor; [apply hex_char_in | exact IH].
Qed.

(** ** EncryptionManager *)

(** C2: a value that survives JSON round-tripping, encrypted and then
    decrypted by the same manager (same master key), comes back unchanged. *)
Theorem decrypt_encrypt (L : CryptoLib) (HL : CryptoLaws L) (em : EncryptionManager)
    (x : json L) (salt_buf iv_buf : list byte)
    (Hx : parse L (stringify L x) = Some x) :
  decrypt em (encrypt em x salt_buf iv_buf) = inl x.
Proof.
  unfold decrypt, encrypt, deriveKey. simpl.
  rewrite String.eqb_refl. simpl.
  rewrite !(b64_roundtrip L HL), (aead_roundtrip L HL).
  rewrite Hx. reflexivity.
Qed.

Lemma decrypt_encrypt_witness :
  parse toy_lib (stringify toy_lib sample_payload) = Some sample_payload /\
  decrypt (L := toy_lib) {| masterKey := "master" |}
    (encrypt (L := toy_lib) {| masterKey := "master" |} sample_payload
       (list_byte_of_string "salt") (list_byte_of_string "iv")) = inl sample_payload.
Proof.
  split; [reflexivity |].
  apply (decrypt_encrypt toy_lib toy_laws). reflexivity.
Defined.




(** C10: decryption never reads the [iv] field, and [encrypt] uses its
    random [iv] only to fill that field. *)
Theorem iv_unused (L : CryptoLib) (em : EncryptionManager) :
  (forall (r : EncryptedData) (v1 v2 : string),
     decrypt (L := L) em (with_iv r v1) = decrypt em (with_iv r v2)) /\
  (forall (x : json L) (salt_buf iv1 iv2 : list byte),
     with_iv (encrypt em x salt_buf iv1) (b64enc L iv2) = encrypt em x salt_buf iv2).
Proof. split; intros; reflexivity. Qed.

Lemma find_user_update (uid : Z) (f : User -> User) (l : list User) :
  (forall u, u_id (f u) = u_id u) ->
  find_user uid (map (fun u => if u_id u =? uid then f u else u) l) =
  option_map f (find_user uid l).
Proof.
  intro Hf. induction l as [| u us IH]; simpl; [reflexivity |].
  destruct (u_id u =? uid) eqn:E; simpl.
  - rewrite Hf, E. reflexivity.
  - rewrite E. exact IH.
Qed.

Lemma filter_id_found (uid : Z) (l : list User) (u : User) :
  find_user uid l = Some u ->
  exists rest, filter (fun v => u_id v =? uid) l = u :: rest.
Proof.
  induction l as [| v vs IH]; simpl; [discriminate |].
  destruct (u_id v =? uid) eqn:E.
  - intro H. injection H as <-. eexists. reflexivity.
  - exact IH.
Qed.

(** ** Account lockout *)

Lemma handleFailedLogin_users (uid : Z) (ip ua : option string) (t : Time) (w : World) (u : User) :
  find_user uid (users (db w)) = Some u ->
  find_user uid (users (db (snd (run (handleFailedLogin uid ip ua t) w)))) = Some (u_fail t u).
Proof.
  intro Hu. destruct w as [d tr]. simpl in Hu.
  assert (Hu' : find_user uid (users (update_user uid (u_fail t) d)) = Some (u_fail t u)).
  { unfold update_user. simpl. rewrite find_user_update by reflexivity. rewrite Hu. reflexivity. }
  destruct (filter_id_found _ _ _ Hu') as [rest Hrest].
  cbv [run handleFailedLogin try_catch bind query fault_free db trace].
  rewrite Hrest. exact Hu'.
Qed.

Lemma seq_calls_cons {A} (m : M A) (ms : list (M A)) (w : World) :
  run (seq_calls (m :: ms)) w =
  match run m w with
  | (inl a, w') =>
      match run (seq_calls ms) w' with
      | (inl r, w'') => (inl (a :: r), w'')
      | (inr e, w'') => (inr e, w'')
      end
  | (inr e, w') => (inr e, w')
  end.
Proof.
  unfold run. simpl. unfold bind at 1. destruct (m fault_free w) as [[a | e] w']; [| reflexivity].
  unfold bind. destruct (seq_calls ms fault_free w') as [[r | e] w'']; reflexivity.
Qed.

Lemma handleFailedLogin_ok (uid : Z) (ip ua : option string) (t : Time) (w : World) (u : User) :
  find_user uid (users (db w)) = Some u ->
  exists r, fst (run (handleFailedLogin uid ip ua t) w) = inl r.
Proof.
  intro Hu. destruct w as [d tr]. simpl in Hu.
  assert (Hu' : find_user uid (users (update_user uid (u_fail t) d)) = Some (u_fail t u)).
  { unfold update_user. simpl. rewrite find_user_update by reflexivity. rewrite Hu. reflexivity. }
  destruct (filter_id_found _ _ _ Hu') as [rest Hrest].
  cbv [run handleFailedLogin try_catch bind query fault_free db trace].
  rewrite Hrest. eexists. reflexivity.
Qed.

Lemma fail_calls_users (uid : Z) (ip ua : option string) (ts : list Time) (w : World) (u : User) :
  find_user uid (users (db w)) = Some u ->
  (exists r, fst (run (fail_calls uid ip ua ts) w) = inl r) /\
  find_user uid (users (db (snd (run (fail_calls uid ip ua ts) w)))) =
    Some (fold_left (fun v t => u_fail t v) ts u).
Proof.
  revert w u. induction ts as [| t ts IH]; intros w u Hu.
  - split; [eexists; reflexivity | exact Hu].
  - unfold fail_calls. simpl map. rewrite seq_calls_cons.
    destruct (handleFailedLogin_ok uid ip ua t w u Hu) as [r Hr].
    pose proof (handleFailedLogin_users uid ip ua t w u Hu) as Hw.
    destruct (run (handleFailedLogin uid ip ua t) w) as [res w'] eqn:E.
    simpl in Hr. subst res. simpl in Hw.
    destruct (IH w' (u_fail t u) Hw) as [[r' Hr'] Hu'].
    unfold fail_calls in Hr', Hu'.
    destruct (run (seq_calls (map (handleFailedLogin uid ip ua) ts)) w') as [[rs | e] w''].
    + split; [eexists; reflexivity | exact Hu'].
    + discriminate Hr'.
Qed.

Lemma check_locked (uid : Z) (a b : Time) (w : World) (u : User) (lu : Time) :
  find_user uid (users (db w)) = Some u -> locked_until u = Some lu -> a < lu ->
  run (checkAccountLockout uid a b) w =
    (inl true, {| db := db w; trace := trace w ++ [(users_t, false)] |}).
Proof.
  intros Hu Hlu Ha. destruct w as [d tr]. simpl in Hu.
  cbv [run checkAccountLockout try_catch bind query fault_free db trace ret].
  rewrite Hu, Hlu. simpl. apply Z.ltb_lt in Ha. rewrite Ha. reflexivity.
Qed.

Lemma check_expired (uid : Z) (a b : Time) (w : World) (u : User) (lu : Time) :
  find_user uid (users (db w)) = Some u -> locked_until u = Some lu -> lu <= a -> a <= b ->
  fst (run (checkAccountLockout uid a b) w) = inl false /\
  find_user uid (users (db (snd (run (checkAccountLockout uid a b) w)))) = Some (u_unlock u).
Proof.
  intros Hu Hlu Ha Hb. destruct w as [d tr]. simpl in Hu.
  cbv [run checkAccountLockout try_catch bind query fault_free db trace ret].
  rewrite Hu, Hlu. simpl.
  assert (E1 : (a <? lu) = false) by (apply Z.ltb_ge; lia).
  assert (E2 : (lu <=? b) = true) by (apply Z.leb_le; lia).
  rewrite E1, E2. simpl. split; [reflexivity |].
  unfold update_user. simpl. rewrite find_user_update by reflexivity. rewrite Hu. reflexivity.
Qed.

Lemma checks_locked (uid : Z) (cs : list (Time * Time)) (w : World) (u : User) (lu : Time) :
  find_user uid (users (db w)) = Some u -> locked_until u = Some lu ->
  Forall (fun c => fst c < lu) cs ->
  fst (run (lockout_checks uid cs) w) = inl (repeat true (List.length cs)) /\
  db (snd (run (lockout_checks uid cs) w)) = db w.
Proof.
  revert w. induction cs as [| [a b] cs IH]; intros w Hu Hlu Hcs.
  - split; reflexivity.
  - inversion Hcs as [| ? ? Ha Hrest]; subst. simpl in Ha.
    unfold lockout_checks. simpl map. rewrite seq_calls_cons. simpl fst. simpl snd.
    rewrite (check_locked uid a b w u lu Hu Hlu Ha).
    set (w' := {| db := db w; trace := trace w ++ [(users_t, false)] |}).
    destruct (IH w' Hu Hlu Hrest) as [IH1 IH2].
    unfold lockout_checks in IH1, IH2.
    destruct (run (seq_calls _) w') as [[rs | e] w''] eqn:E; simpl in IH1, IH2 |- *.
    + injection IH1 as ->. split; [reflexivity | exact IH2].
    + discriminate IH1.
Qed.

Lemma five_failures (u : User) (f1 f2 f3 f4 f5 : Time) :
  failed_login_attempts u = 0 -> locked_until u = None ->
  failed_login_attempts (fold_left (fun v t => u_fail t v) [f1; f2; f3; f4; f5] u) = 5 /\
  locked_until (fold_left (fun v t => u_fail t v) [f1; f2; f3; f4; f5] u) =
    Some (f5 + duration ACCOUNT_LOCKOUT).
Proof. intros H0 Hn. simpl. rewrite H0, Hn. split; reflexivity. Qed.

(** C1: from an account with no failed attempt and no lockout, five
    consecutive failed logins lock it: every lockout check whose clock read
    falls before the end of the 30-minute window (counted from the fifth
    failure) answers true and changes nothing; the first check after the
    window answers false and resets the counter to 0 and clears the lock.
    [(a, b)] are the two clock reads of that check. *)
Theorem lockout_after_five_failures (uid : Z) (ip ua : option string) (w : World) (u : User)
    (f1 f2 f3 f4 f5 : Time) (cs : list (Time * Time)) (a b : Time)
    (Hu : find_user uid (users (db w)) = Some u)
    (H0 : failed_login_attempts u = 0) (Hnl : locked_until u = None)
    (Hcs : Forall (fun c => fst c < f5 + duration ACCOUNT_LOCKOUT) cs)
    (Ha : f5 + duration ACCOUNT_LOCKOUT <= a) (Hab : a <= b) :
  let w1 := snd (run (fail_calls uid ip ua [f1; f2; f3; f4; f5]) w) in
  let w2 := snd (run (lockout_checks uid cs) w1) in
  (exists u1, find_user uid (users (db w1)) = Some u1 /\ failed_login_attempts u1 = 5 /\
     locked_until u1 = Some (f5 + duration ACCOUNT_LOCKOUT)) /\
  fst (run (lockout_checks uid cs) w1) = inl (repeat true (List.length cs)) /\
  db w2 = db w1 /\
  fst (run (checkAccountLockout uid a b) w2) = inl false /\
  (exists u3, find_user uid (users (db (snd (run (checkAccountLockout uid a b) w2)))) = Some u3 /\
     failed_login_attempts u3 = 0 /\ locked_until u3 = None).
Proof.
  intros w1 w2.
  destruct (fail_calls_users uid ip ua [f1; f2; f3; f4; f5] w u Hu) as [_ Hw1].
  fold w1 in Hw1.
  set (u1 := fold_left (fun v t => u_fail t v) [f1; f2; f3; f4; f5] u) in Hw1.
  destruct (five_failures u f1 f2 f3 f4 f5 H0 Hnl) as [Hf Hl]. fold u1 in Hf, Hl.
  destruct (checks_locked uid cs w1 u1 _ Hw1 Hl Hcs) as [Hr Hd].
  fold w2 in Hd.
  assert (Hw2 : find_user uid (users (db w2)) = Some u1) by (rewrite Hd; exact Hw1).
  destruct (check_expired uid a b w2 u1 _ Hw2 Hl Ha Hab) as [Hc Hw3].
  split; [exists u1; auto |].
  split; [exact Hr |]. split; [exact Hd |]. split; [exact Hc |].
  exists (u_unlock u1). split; [exact Hw3 | split; reflexivity].
Qed.

Lemma lockout_after_five_failures_witness :
  fst (run (lockout_checks 1 [(10, 10); (100, 100)])
         (snd (run (fail_calls 1 None None [1; 2; 3; 4; 5]) session_world)))
  = inl [true; true].
Proof.
  assert (Hcs : Forall (fun c => fst c < 5 + duration ACCOUNT_LOCKOUT) [(10, 10); (100, 100)])
    by (repeat (apply Forall_cons; [unfold duration, ACCOUNT_LOCKOUT; simpl; lia |]); apply Forall_nil).
  destruct (lockout_after_five_failures 1 None None session_world (sample_user 1 "a@example.org")
              1 2 3 4 5 [(10, 10); (100, 100)]
              (5 + duration ACCOUNT_LOCKOUT) (5 + duration ACCOUNT_LOCKOUT)
              eq_refl eq_refl eq_refl Hcs)
    as (_ & Hr & _); [lia | lia | exact Hr].
Defined.

(** ** Rate limiting *)

Lemma rl_rows_update (ident ep : string) (f : RateLimit -> RateLimit) (d : DB) :
  (forall r, identifier (f r) = identifier r /\ endpoint (f r) = endpoint r) ->
  rl_rows (update_rl ident ep f d) ident ep = map f (rl_rows d ident ep).
Proof.
  intro Hf. unfold rl_rows, update_rl. simpl.
  induction (rate_limits d) as [| r rs IH]; simpl; [reflexivity |].
  destruct (rl_matches ident ep r) eqn:E; simpl.
  - unfold rl_matches in *. destruct (Hf r) as [-> ->]. rewrite E. simpl. f_equal. exact IH.
  - rewrite E. exact IH.
Qed.

Lemma rl_rows_set_audit_log (d : DB) (l : list AuditEvent) (ident ep : string) :
  rl_rows (set_audit_log d l) ident ep = rl_rows d ident ep.
Proof. reflexivity. Qed.

Lemma check_one_row (ident ep : string) (ip : option string) (lim : Limit) (now : Time)
    (w : World) (r : RateLimit) :
  RATE_LIMITS ep = Some lim -> rl_rows (db w) ident ep = [r] ->
  fst (run (checkRateLimit ident ep ip now) w) = inl (fst (rl_step lim now r)) /\
  rl_rows (db (snd (run (checkRateLimit ident ep ip now) w))) ident ep = [snd (rl_step lim now r)].
Proof.
  intros Hlim Hr. destruct w as [d tr]. simpl in Hr.
  cbv [run checkRateLimit try_catch bind query fault_free db trace ret logSecurityEvent].
  rewrite Hlim, Hr. cbn [latest]. unfold rl_step.
  destruct (is_future (blocked_until r) now); [split; [reflexivity | exact Hr] |].
  destruct (now - window lim <? window_start r);
    [destruct (requests lim <=? requests_count r) |]; cbn -[update_rl rl_rows];
    (split; [reflexivity |]);
    rewrite ?rl_rows_set_audit_log, rl_rows_update by (intro; split; reflexivity);
    rewrite Hr; reflexivity.
Qed.

Lemma check_no_row (ident ep : string) (ip : option string) (lim : Limit) (now : Time) (w : World) :
  RATE_LIMITS ep = Some lim -> rl_rows (db w) ident ep = [] ->
  fst (run (checkRateLimit ident ep ip now) w) = inl true /\
  rl_rows (db (snd (run (checkRateLimit ident ep ip now) w))) ident ep = [rl_fresh ident ep now].
Proof.
  intros Hlim Hr. destruct w as [d tr]. simpl in Hr.
  cbv [run checkRateLimit try_catch bind query fault_free db trace ret].
  rewrite Hlim, Hr. cbn [latest]. split; [reflexivity |].
  unfold rl_rows in *. simpl. rewrite filter_app, Hr. simpl.
  unfold rl_matches. simpl. rewrite !String.eqb_refl. reflexivity.
Qed.

Lemma rate_calls_cons (ident ep : string) (ip : option string) (t : Time) (ts : list Time) (w : World) :
  run (rate_calls ident ep ip (t :: ts)) w =
  match run (checkRateLimit ident ep ip t) w with
  | (inl a, w') =>
      match run (rate_calls ident ep ip ts) w' with
      | (inl r, w'') => (inl (a :: r), w'')
      | (inr e, w'') => (inr e, w'')
      end
  | (inr e, w') => (inr e, w')
  end.
Proof. apply seq_calls_cons. Qed.

(** Calls inside the open window, below the limit, are allowed and count. *)
Lemma rate_calls_counting (ident ep : string) (ip : option string) (lim : Limit) (t0 : Time) :
  RATE_LIMITS ep = Some lim ->
  forall (ts : list Time) (w : World) (r : RateLimit),
  rl_rows (db w) ident ep = [r] -> window_start r = t0 -> blocked_until r = None ->
  requests_count r + Z.of_nat (List.length ts) <= requests lim ->
  Forall (fun x => x < t0 + window lim) ts ->
  fst (run (rate_calls ident ep ip ts) w) = inl (repeat true (List.length ts)) /\
  exists r', rl_rows (db (snd (run (rate_calls ident ep ip ts) w))) ident ep = [r'] /\
    requests_count r' = requests_count r + Z.of_nat (List.length ts) /\
    window_start r' = t0 /\ blocked_until r' = None.
Proof.
  intros Hlim ts. induction ts as [| t ts IH]; intros w r Hr Hws Hbu Hcnt Hts.
  - split; [reflexivity |]. exists r. simpl. repeat split; auto. lia.
  - apply Forall_cons_iff in Hts as [Ht Hrest].
    rewrite rate_calls_cons.
    destruct (check_one_row ident ep ip lim t w r Hlim Hr) as [H1 H2].
    assert (Hstep : rl_step lim t r = (true, rl_increment t r)).
    { unfold rl_step. rewrite Hbu. simpl.
      assert (E1 : (t - window lim <? window_start r) = true) by (apply Z.ltb_lt; lia).
      assert (E2 : (requests lim <=? requests_count r) = false)
        by (apply Z.leb_gt; simpl List.length in Hcnt; lia).
      rewrite E1, E2. reflexivity. }
    rewrite Hstep in H1, H2. simpl in H1, H2.
    destruct (run (checkRateLimit ident ep ip t) w) as [res w'] eqn:E. simpl in H1, H2. subst res.
    assert (Hcnt' : requests_count (rl_increment t r) + Z.of_nat (List.length ts) <= requests lim)
      by (simpl; simpl List.length in Hcnt; lia).
    destruct (IH w' (rl_increment t r) H2 Hws Hbu Hcnt' Hrest) as [IH1 [r' [IH2 [IH3 [IH4 IH5]]]]].
    destruct (run (rate_calls ident ep ip ts) w') as [[rs | e] w''].
    + simpl in IH1 |- *. injection IH1 as ->. split; [reflexivity |].
      exists r'. simpl in IH3. split; [exact IH2 |].
      split; [simpl List.length; lia | split; assumption].
    + discriminate IH1.
Qed.

(** Calls while the row is blocked are denied and change nothing. *)
Lemma rate_calls_blocked (ident ep : string) (ip : option string) (lim : Limit) (bu : Time) :
  RATE_LIMITS ep = Some lim ->
  forall (bs : list Time) (w : World) (r : RateLimit),
  rl_rows (db w) ident ep = [r] -> blocked_until r = Some bu ->
  Forall (fun x => x < bu) bs ->
  fst (run (rate_calls ident ep ip bs) w) = inl (repeat false (List.length bs)) /\
  rl_rows (db (snd (run (rate_calls ident ep ip bs) w))) ident ep = [r].
Proof.
  intros Hlim bs. induction bs as [| b bs IH]; intros w r Hr Hbu Hbs.
  - split; [reflexivity | exact Hr].
  - apply Forall_cons_iff in Hbs as [Hb Hrest].
    rewrite rate_calls_cons.
    destruct (check_one_row ident ep ip lim b w r Hlim Hr) as [H1 H2].
    assert (Hstep : rl_step lim b r = (false, r)).
    { unfold rl_step. rewrite Hbu. simpl.
      assert (E : (b <? bu) = true) by (apply Z.ltb_lt; lia). rewrite E. reflexivity. }
    rewrite Hstep in H1, H2. simpl in H1, H2.
    destruct (run (checkRateLimit ident ep ip b) w) as [res w'] eqn:E. simpl in H1, H2. subst res.
    destruct (IH w' r H2 Hbu Hrest) as [IH1 IH2].
    destruct (run (rate_calls ident ep ip bs) w') as [[rs | e] w''].
    + simpl in IH1 |- *. injection IH1 as ->. split; [reflexivity | exact IH2].
    + discriminate IH1.
Qed.

(** C5: for a configured endpoint with limit [R] per window [W] and no
    row yet for the pair, calls 1 to [R] inside the window opened by the
    first are allowed (the first creates the row with count 1, the others
    count up to [R]); call [R+1] inside the window is denied and sets
    [blocked_until] to its time plus [W] without counting; every call before
    [blocked_until] is denied and leaves the row as it is; the first call
    at or after [blocked_until] is allowed and opens a new window with
    count 1. Calls are made in clock order. *)
Theorem rate_limit_window (ident ep : string) (ip : option string) (lim : Limit) (w : World)
    (t0 tR1 t : Time) (ts bs : list Time)
    (Hlim : RATE_LIMITS ep = Some lim) (Hnone : rl_rows (db w) ident ep = [])
    (Hlen : Z.of_nat (List.length ts) = requests lim - 1)
    (Hts : Forall (fun x => x < t0 + window lim) ts)
    (HtR1 : t0 <= tR1 < t0 + window lim)
    (Hbs : Forall (fun x => x < tR1 + window lim) bs)
    (Ht : tR1 + window lim <= t) :
  let w1 := snd (run (rate_calls ident ep ip (t0 :: ts)) w) in
  let w2 := snd (run (checkRateLimit ident ep ip tR1) w1) in
  let w3 := snd (run (rate_calls ident ep ip bs) w2) in
  fst (run (rate_calls ident ep ip (t0 :: ts)) w) = inl (repeat true (Z.to_nat (requests lim))) /\
  (exists r1, rl_rows (db w1) ident ep = [r1] /\ requests_count r1 = requests lim /\
     window_start r1 = t0 /\ blocked_until r1 = None) /\
  fst (run (checkRateLimit ident ep ip tR1) w1) = inl false /\
  (exists r2, rl_rows (db w2) ident ep = [r2] /\ requests_count r2 = requests lim /\
     blocked_until r2 = Some (tR1 + window lim)) /\
  fst (run (rate_calls ident ep ip bs) w2) = inl (repeat false (List.length bs)) /\
  rl_rows (db w3) ident ep = rl_rows (db w2) ident ep /\
  fst (run (checkRateLimit ident ep ip t) w3) = inl true /\
  (exists r4, rl_rows (db (snd (run (checkRateLimit ident ep ip t) w3))) ident ep = [r4] /\
     requests_count r4 = 1 /\ window_start r4 = t /\ blocked_until r4 = None).
Proof.
  intros w1 w2 w3.
  (* calls 1 .. R *)
  destruct (check_no_row ident ep ip lim t0 w Hlim Hnone) as [F1 F2].
  destruct (run (checkRateLimit ident ep ip t0) w) as [res w'] eqn:E0.
  simpl in F1, F2. subst res.
  assert (Hc : requests_count (rl_fresh ident ep t0) + Z.of_nat (List.length ts) <= requests lim)
    by (change (requests_count (rl_fresh ident ep t0)) with 1; lia).
  destruct (rate_calls_counting ident ep ip lim t0 Hlim ts _ _ F2 eq_refl eq_refl Hc Hts)
    as [C1 [r1 [C2 [C3 [C4 C5]]]]].
  destruct (run (rate_calls ident ep ip ts) w') as [res' w''] eqn:Ets.
  simpl in C1, C2. subst res'.
  assert (Hw1 : run (rate_calls ident ep ip (t0 :: ts)) w =
                (inl (true :: repeat true (List.length ts)), w'')).
  { rewrite rate_calls_cons, E0, Ets. reflexivity. }
  assert (Hw1' : w1 = w'') by (unfold w1; rewrite Hw1; reflexivity).
  rewrite <- Hw1' in C2.
  change (requests_count (rl_fresh ident ep t0)) with 1 in C3.
  (* call R + 1 *)
  destruct (check_one_row ident ep ip lim tR1 w1 r1 Hlim C2) as [B1 B2].
  assert (Hstep : rl_step lim tR1 r1 = (false, rl_set_blocked (tR1 + window lim) r1)).
  { unfold rl_step. rewrite C5. simpl.
    assert (E1 : (tR1 - window lim <? window_start r1) = true) by (apply Z.ltb_lt; lia).
    assert (E2 : (requests lim <=? requests_count r1) = true) by (apply Z.leb_le; lia).
    rewrite E1, E2. reflexivity. }
  rewrite Hstep in B1, B2. simpl in B1, B2. fold w2 in B2.
  (* calls while blocked *)
  destruct (rate_calls_blocked ident ep ip lim (tR1 + window lim) Hlim bs w2 _ B2 eq_refl Hbs)
    as [K1 K2].
  fold w3 in K2.
  (* first call after the block *)
  destruct (check_one_row ident ep ip lim t w3 _ Hlim K2) as [A1 A2].
  assert (Hstep' : rl_step lim t (rl_set_blocked (tR1 + window lim) r1) =
                   (true, rl_reset t (rl_set_blocked (tR1 + window lim) r1))).
  { unfold rl_step. simpl.
    assert (E1 : (t <? tR1 + window lim) = false) by (apply Z.ltb_ge; lia).
    assert (E2 : (t - window lim <? window_start r1) = false) by (apply Z.ltb_ge; lia).
    rewrite E1, E2. reflexivity. }
  rewrite Hstep' in A1, A2. simpl in A1, A2.
  split.
  { rewrite Hw1. simpl. f_equal.
    replace (Z.to_nat (requests lim)) with (S (List.length ts)) by lia. reflexivity. }
  split; [exists r1; repeat split; auto; lia |].
  split; [exact B1 |].
  split; [eexists; split; [exact B2 | split; simpl; [lia | reflexivity]] |].
  split; [exact K1 |].
  split; [rewrite K2, B2; reflexivity |].
  split; [exact A1 |].
  eexists. split; [exact A2 | repeat split].
Qed.

Lemma rate_limit_window_witness :
  fst (run (checkRateLimit "1.2.3.4" "login" None 5)
         (snd (run (rate_calls "1.2.3.4" "login" None [0; 1; 2; 3; 4]) session_world)))
  = inl false.
Proof.
  assert (Hts : Forall (fun x => x < 0 + 900000) [1; 2; 3; 4])
    by (repeat (apply Forall_cons; [lia |]); apply Forall_nil).
  assert (Hbs : Forall (fun x => x < 5 + 900000) [6; 7])
    by (repeat (apply Forall_cons; [lia |]); apply Forall_nil).
  destruct (rate_limit_window "1.2.3.4" "login" None
              {| requests := 5; window := 15 * 60 * 1000 |} session_world
              0 5 (5 + 900000) [1; 2; 3; 4] [6; 7]
              eq_refl eq_refl eq_refl Hts)
    as (_ & _ & Hblock & _); [simpl; lia | exact Hbs | simpl; lia | exact Hblock].
Defined.


(** ** Storage failures *)

(** Case analysis on the tests of an unfolded run: the backend's
    answers, the rows read and the comparisons, innermost tests first. *)
Ltac split_on x :=
  lazymatch type of x with
  | bool => destruct x eqn:?
  | option _ => destruct x eqn:?
  | list _ => destruct x eqn:?
  | prod _ _ => is_var x; destruct x
  end.

Ltac split_branches :=
  repeat (simpl in *;
          match goal with
          | |- context [match ?x with _ => _ end] =>
              lazymatch x with
              | context [match _ with _ => _ end] => fail
              | _ => split_on x
              end
          | |- context [match ?x with _ => _ end] => split_on x
          end).

(** The queries the rate-limit check issues on its own table, and the
    audit-log insert it may issue when it blocks, are the only queries
    of a call. *)
Lemma checkRateLimit_trace (ident ep : string) (ip : option string) (now : Time)
    (o : Oracle) (w : World) :
  exists sfx, trace (snd (checkRateLimit ident ep ip now o w)) = trace w ++ sfx /\
    (exists b, fst (checkRateLimit ident ep ip now o w) = inl b) /\
    (In (rate_limits_t, true) sfx -> fst (checkRateLimit ident ep ip now o w) = inl true) /\
    (In (security_audit_log_t, true) sfx -> fst (checkRateLimit ident ep ip now o w) = inl false).
Proof.
  destruct w as [d tr].
  cbv [checkRateLimit try_catch bind query ret logSecurityEvent db trace].
  split_branches; simpl in *; try discriminate;
    (eexists; split;
       [first [symmetry; apply app_nil_r | rewrite <- ?app_assoc; reflexivity] |]);
    (split; [eexists; reflexivity |]);
    split; simpl; intuition congruence.
Qed.

(** C7 (as amended): the rate-limit check never fails, and when one of its
    queries on the rate-limit table fails it allows the request; when the
    audit insert it makes while blocking fails, the failure is swallowed
    and the check denies the request. *)
Theorem checkRateLimit_fails_open (ident ep : string) (ip : option string) (now : Time)
    (o : Oracle) (w : World) :
  (exists b, fst (checkRateLimit ident ep ip now o w) = inl b) /\
  (forall sfx, trace (snd (checkRateLimit ident ep ip now o w)) = trace w ++ sfx ->
     In (rate_limits_t, true) sfx -> fst (checkRateLimit ident ep ip now o w) = inl true) /\
  (forall sfx, trace (snd (checkRateLimit ident ep ip now o w)) = trace w ++ sfx ->
     In (security_audit_log_t, true) sfx -> fst (checkRateLimit ident ep ip now o w) = inl false).
Proof.
  destruct (checkRateLimit_trace ident ep ip now o w) as (sfx & Htr & Hb & Hopen & Hdeny).
  split; [exact Hb |]. split.
  - intros sfx' Htr' Hin. apply Hopen. rewrite Htr in Htr'.
    apply app_inv_head in Htr'. subst sfx'. exact Hin.
  - intros sfx' Htr' Hin. apply Hdeny. rewrite Htr in Htr'.
    apply app_inv_head in Htr'. subst sfx'. exact Hin.
Qed.

(** C7, counterexample: a backend failure during the rate-limit check (the
    audit insert of the blocking path) does not make the check allow the
    request: the check returns false. *)
Lemma checkRateLimit_audit_failure_denies :
  In (security_audit_log_t, true)
     (trace (snd (checkRateLimit "1.2.3.4" "login" None 1000 audit_down exhausted_world))) /\
  fst (checkRateLimit "1.2.3.4" "login" None 1000 audit_down exhausted_world) = inl false.
Proof. vm_compute. split; [right; right; left; reflexivity | reflexivity]. Qed.

(** ** Audit logging *)

Ltac oracle_agree Hagree :=
  match goal with
  | H1 : ?o1 ?n ?t = true, H2 : ?o2 ?n ?t = false |- _ =>
      rewrite (Hagree n t) in H1 by discriminate; congruence
  | H1 : ?o1 ?n ?t = false, H2 : ?o2 ?n ?t = true |- _ =>
      rewrite (Hagree n t) in H1 by discriminate; congruence
  end.

Lemma logSecurityEvent_total (userId : option Z) (eventType : string)
    (ipAddress userAgent : option string) (success_ : bool)
    (details_ : list (string * JVal)) (now : Time) (o : Oracle) (w : World) :
  fst (logSecurityEvent userId eventType ipAddress userAgent success_ details_ now o w) = inl tt.
Proof.
  cbv [logSecurityEvent try_catch query ret]. destruct (o _ _); reflexivity.
Qed.

(** C8: the audit insert never fails the logging call, and the rate-limit
    check and the login handlers, which append to the audit log, give the
    same result whether the audit insert succeeds or fails. *)
Theorem audit_failure_contained (o1 o2 : Oracle) (Hagree : agree_off_audit o1 o2) (w : World) :
  (forall userId eventType ipAddress userAgent success_ details_ now,
     fst (logSecurityEvent userId eventType ipAddress userAgent success_ details_ now o1 w)
     = inl tt) /\
  (forall ident ep ip now,
     fst (checkRateLimit ident ep ip now o1 w) = fst (checkRateLimit ident ep ip now o2 w)) /\
  (forall userId ip ua now,
     fst (handleFailedLogin userId ip ua now o1 w) = fst (handleFailedLogin userId ip ua now o2 w)) /\
  (forall userId ip ua now,
     fst (handleSuccessfulLogin userId ip ua now o1 w)
     = fst (handleSuccessfulLogin userId ip ua now o2 w)).
Proof.
  destruct w as [d tr].
  split; [intros; apply logSecurityEvent_total |].
  split; [| split]; intros;
    cbv [checkRateLimit handleFailedLogin handleSuccessfulLogin
         try_catch bind query ret throw logSecurityEvent db trace];
    split_branches; simpl in *; try reflexivity; try discriminate; oracle_agree Hagree.
Qed.

Lemma audit_failure_contained_witness :
  agree_off_audit fault_free audit_down /\
  fst (checkRateLimit "1.2.3.4" "login" None 1000 fault_free exhausted_world)
  = fst (checkRateLimit "1.2.3.4" "login" None 1000 audit_down exhausted_world).
Proof.
  assert (H : agree_off_audit fault_free audit_down)
    by (intros n t Ht; destruct t; vm_compute; congruence).
  split; [exact H |].
  apply (audit_failure_contained fault_free audit_down H exhausted_world).
Defined.

(** ** Session refresh *)

Lemma select_refreshable_absent (rt : string) (now : Time) (l : list Session) :
  ~ In rt (map refresh_token l) -> select_refreshable rt now l = None.
Proof.
  induction l as [| x l IH]; intro H; [reflexivity |].
  simpl in *. destruct (String.eqb (refresh_token x) rt) eqn:E.
  - apply String.eqb_eq in E. tauto.
  - apply IH. tauto.
Qed.

Lemma select_refreshable_unique (rt : string) (now : Time) (l : list Session) (s : Session) :
  NoDup (map refresh_token l) -> In s l -> refresh_token s = rt ->
  select_refreshable rt now l =
    if is_active s && (now <? refresh_expires_at s) then Some s else None.
Proof.
  induction l as [| x l IH]; intros Hnd Hin Hrt; [destruct Hin |].
  simpl in Hnd. apply NoDup_cons_iff in Hnd as [Hx Hnd].
  destruct Hin as [-> | Hin].
  - simpl. rewrite Hrt, String.eqb_refl. simpl.
    destruct (is_active s && (now <? refresh_expires_at s)); [reflexivity |].
    rewrite Hrt in Hx. apply select_refreshable_absent. exact Hx.
  - simpl. destruct (String.eqb (refresh_token x) rt) eqn:E.
    + apply String.eqb_eq in E. exfalso. apply Hx. rewrite E, <- Hrt.
      apply in_map. exact Hin.
    + simpl. apply IH; assumption.
Qed.

Lemma token_free_fresh (sid : Z) (tok : string) (sel : Session -> string) (l : list Session) :
  Forall (fun x => sel x <> tok) l -> token_free sid tok sel l = true.
Proof.
  intro H. unfold token_free. apply forallb_forall. intros x Hx.
  rewrite Forall_forall in H. specialize (H x Hx).
  apply String.eqb_neq in H. rewrite H. apply orb_true_r.
Qed.

Lemma select_valid_none (tok : string) (now : Time) (us : list User) (l : list Session) :
  Forall (fun x => session_token x <> tok \/ is_active x = false) l ->
  select_valid tok now us l = None.
Proof.
  induction l as [| x l IH]; intro H; [reflexivity |].
  apply Forall_cons_iff in H as [[Hx | Hx] H]; simpl.
  - apply String.eqb_neq in Hx. rewrite Hx. simpl. apply IH. exact H.
  - rewrite Hx, andb_false_r. simpl. apply IH. exact H.
Qed.

Lemma validate_absent (tok : string) (now : Time) (w : World) :
  Forall (fun x => session_token x <> tok \/ is_active x = false) (user_sessions (db w)) ->
  fst (run (validateSession tok now) w) = inl None.
Proof.
  intro H. destruct w as [d tr].
  cbv [run validateSession try_catch bind query ret fault_free db trace].
  simpl in H. rewrite select_valid_none by exact H. reflexivity.
Qed.

Lemma NoDup_map_same {A B} (f : A -> B) (l : list A) (x y : A) :
  NoDup (map f l) -> In x l -> In y l -> f x = f y -> x = y.
Proof.
  induction l as [| a l IH]; intros Hnd Hx Hy Hf; [destruct Hx |].
  simpl in Hnd. apply NoDup_cons_iff in Hnd as [Ha Hnd].
  destruct Hx as [<- | Hx], Hy as [<- | Hy]; auto.
  - exfalso. apply Ha. rewrite Hf. apply in_map. exact Hy.
  - exfalso. apply Ha. rewrite <- Hf. apply in_map. exact Hx.
Qed.

(** C4: refreshing with the refresh token of a stored session gives
    nothing when the session is inactive or its refresh expiry has passed;
    otherwise it rotates both tokens of that same record, sets the access
    expiry to 24 hours and the refresh expiry to 7 days after the clock
    reads of the refresh call, and the old session token no longer
    validates. The new tokens are fresh, and the stored tokens are unique
    (the [UNIQUE] constraints). *)
Theorem refreshSession_rotates (w : World) (s : Session) (rt : string)
    (now t1 t2 : Time) (nt nrt : string)
    (Hin : In s (user_sessions (db w))) (Hrt : refresh_token s = rt)
    (Hrtu : NoDup (map refresh_token (user_sessions (db w))))
    (Hstu : NoDup (map session_token (user_sessions (db w))))
    (Hfresh : Forall (fun x => session_token x <> nt /\ refresh_token x <> nrt)
                (user_sessions (db w))) :
  (is_active s = false \/ refresh_expires_at s <= now ->
     fst (run (refreshSession rt now t1 t2 nt nrt) w) = inl None) /\
  (is_active s = true -> now < refresh_expires_at s ->
     fst (run (refreshSession rt now t1 t2 nt nrt) w) =
       inl (Some {| r_sessionId := s_id s; r_userId := user_id s;
                    r_sessionToken := nt; r_refreshToken := nrt;
                    r_expiresAt := t1 + ACCESS_TTL;
                    r_refreshExpiresAt := t2 + REFRESH_TTL |}) /\
     user_sessions (db (snd (run (refreshSession rt now t1 t2 nt nrt) w))) =
       map (fun x => if s_id x =? s_id s
                     then s_rotate nt nrt (t1 + ACCESS_TTL) (t2 + REFRESH_TTL) now x
                     else x) (user_sessions (db w)) /\
     forall tv, fst (run (validateSession (session_token s) tv)
                       (snd (run (refreshSession rt now t1 t2 nt nrt) w))) = inl None).
Proof.
  destruct w as [d tr]. simpl in *.
  pose proof (select_refreshable_unique rt now _ s Hrtu Hin Hrt) as Hsel.
  split.
  - intro Hoff.
    cbv [run refreshSession try_catch bind query ret fault_free db trace].
    rewrite Hsel.
    replace (is_active s && (now <? refresh_expires_at s)) with false; [reflexivity |].
    destruct Hoff as [-> | Hle]; [reflexivity |].
    symmetry. apply andb_false_iff. right. apply Z.ltb_ge. exact Hle.
  - intros Hact Hlive.
    assert (Hon : is_active s && (now <? refresh_expires_at s) = true)
      by (rewrite Hact; simpl; apply Z.ltb_lt; exact Hlive).
    assert (Htf : token_free (s_id s) nt session_token (user_sessions d)
                  && token_free (s_id s) nrt refresh_token (user_sessions d) = true).
    { rewrite !token_free_fresh; [reflexivity | |];
        eapply Forall_impl; try exact Hfresh; simpl; tauto. }
    cbv [run refreshSession try_catch bind query ret fault_free db trace].
    rewrite Hsel, Hon. simpl. rewrite Htf. simpl.
    split; [reflexivity |]. split; [reflexivity |].
    intro tv. apply validate_absent. simpl.
    apply Forall_forall. intros y Hy. apply in_map_iff in Hy as (x & <- & Hx).
    left. destruct (s_id x =? s_id s) eqn:E; simpl.
    + rewrite Forall_forall in Hfresh. destruct (Hfresh s Hin) as [Hn _].
      intro Heq. apply Hn. symmetry. exact Heq.
    + intro Heq. apply Z.eqb_neq in E. apply E. f_equal.
      apply (NoDup_map_same session_token _ x s Hstu Hx Hin Heq).
Qed.

Lemma refreshSession_rotates_witness :
  fst (run (refreshSession "refA" 1000 1000 1000 "tokN" "refN") session_world) =
    inl (Some {| r_sessionId := 1; r_userId := 1; r_sessionToken := "tokN";
                 r_refreshToken := "refN"; r_expiresAt := 1000 + ACCESS_TTL;
                 r_refreshExpiresAt := 1000 + REFRESH_TTL |}) /\
  fst (run (validateSession "tokA" 2000)
         (snd (run (refreshSession "refA" 1000 1000 1000 "tokN" "refN") session_world)))
  = inl None.
Proof.
  assert (Hin : In (sample_session 1 1 "tokA" "refA") (user_sessions (db session_world)))
    by (simpl; left; reflexivity).
  assert (Hrtu : NoDup (map refresh_token (user_sessions (db session_world))))
    by (simpl; repeat constructor; simpl; intuition discriminate).
  assert (Hstu : NoDup (map session_token (user_sessions (db session_world))))
    by (simpl; repeat constructor; simpl; intuition discriminate).
  assert (Hfresh : Forall (fun x => session_token x <> "tokN" /\ refresh_token x <> "refN")
                     (user_sessions (db session_world)))
    by (simpl; repeat constructor; simpl; discriminate).
  destruct (refreshSession_rotates session_world _ "refA" 1000 1000 1000 "tokN" "refN"
              Hin eq_refl Hrtu Hstu Hfresh) as [_ Hlive].
  destruct (Hlive eq_refl) as (Hres & _ & Hold); [vm_compute; reflexivity |].
  split; [exact Hres | apply (Hold 2000)].
Defined.

(** ** Revoking all sessions of a user *)

Lemma select_valid_map_keep (tok : string) (now : Time) (us : list User)
    (g : Session -> Session) (l : list Session) (s : Session) (u : User) :
  (forall x, g x = x \/ g x = s_deactivate x) -> g s = s ->
  select_valid tok now us l = Some (s, u) -> select_valid tok now us (map g l) = Some (s, u).
Proof.
  intros Hg Hs. induction l as [| x l IH]; intro H; [discriminate |].
  simpl in *.
  destruct (String.eqb (session_token x) tok && is_active x && (now <? expires_at x)) eqn:Ex.
  - destruct (find_user (user_id x) us) as [ux |] eqn:Eu.
    + injection H as <- <-. rewrite Hs, Ex, Eu. reflexivity.
    + destruct (Hg x) as [-> | ->];
        [rewrite Ex, Eu | cbn [s_deactivate is_active]; rewrite andb_false_r; simpl];
        apply IH; exact H.
  - destruct (Hg x) as [-> | ->];
      [rewrite Ex | cbn [s_deactivate is_active]; rewrite andb_false_r; simpl];
      apply IH; exact H.
Qed.

(** C6: revoking all sessions of [owner] succeeds; afterwards no session
    token of [owner] validates, the records of other owners and the users
    are as before, and a validation that succeeded for another owner's
    session still succeeds with the same answer. Session tokens are
    unique (the [UNIQUE] constraint). *)
Theorem revokeAllUserSessions_spec (owner : Z) (w : World)
    (Hstu : NoDup (map session_token (user_sessions (db w)))) :
  fst (run (revokeAllUserSessions owner) w) = inl true /\
  (forall s tv, In s (user_sessions (db w)) -> user_id s = owner ->
     fst (run (validateSession (session_token s) tv)
            (snd (run (revokeAllUserSessions owner) w))) = inl None) /\
  users (db (snd (run (revokeAllUserSessions owner) w))) = users (db w) /\
  filter (fun s => negb (user_id s =? owner))
    (user_sessions (db (snd (run (revokeAllUserSessions owner) w)))) =
  filter (fun s => negb (user_id s =? owner)) (user_sessions (db w)) /\
  (forall tok tv c, fst (run (validateSession tok tv) w) = inl (Some c) -> c_userId c <> owner ->
     fst (run (validateSession tok tv) (snd (run (revokeAllUserSessions owner) w)))
     = inl (Some c)).
Proof.
  destruct w as [d tr]. simpl in Hstu.
  set (g := fun s => if user_id s =? owner then s_deactivate s else s).
  assert (Hrun : run (revokeAllUserSessions owner) {| db := d; trace := tr |} =
                 (inl true, {| db := set_user_sessions d (map g (user_sessions d));
                               trace := tr ++ [(user_sessions_t, false)] |}))
    by reflexivity.
  rewrite Hrun. simpl. split; [reflexivity |]. split; [| split; [reflexivity | split]].
  - intros s tv Hin Hown. apply validate_absent. simpl.
    apply Forall_forall. intros y Hy. apply in_map_iff in Hy as (x & <- & Hx).
    subst g. simpl. destruct (user_id x =? owner) eqn:E; [right; reflexivity | left].
    intro Heq. pose proof (NoDup_map_same session_token _ x s Hstu Hx Hin Heq) as ->.
    apply Z.eqb_neq in E. contradiction.
  - clear Hrun Hstu. induction (user_sessions d) as [| x l IH]; [reflexivity |].
    simpl. subst g. simpl. destruct (user_id x =? owner) eqn:E; simpl; rewrite E; simpl;
      [exact IH | f_equal; exact IH].
  - intros tok tv c Hc Hown.
    cbv [run validateSession try_catch bind query ret fault_free db trace] in Hc |- *.
    simpl in Hc |- *.
    destruct (select_valid tok tv (users d) (user_sessions d)) as [[s u] |] eqn:Hs;
      [| discriminate].
    injection Hc as <-. simpl in Hown.
    rewrite (select_valid_map_keep tok tv (users d) g (user_sessions d) s u);
      [reflexivity | | | exact Hs].
    + intro x. subst g. simpl. destruct (user_id x =? owner); auto.
    + subst g. simpl. apply Z.eqb_neq in Hown. rewrite Hown. reflexivity.
Qed.

Lemma revokeAllUserSessions_spec_witness :
  fst (run (revokeAllUserSessions 1) session_world) = inl true /\
  fst (run (validateSession "tokA" 10) (snd (run (revokeAllUserSessions 1) session_world)))
  = inl None /\
  fst (run (validateSession "tokB" 10) (snd (run (revokeAllUserSessions 1) session_world)))
  = fst (run (validateSession "tokB" 10) session_world).
Proof.
  assert (Hstu : NoDup (map session_token (user_sessions (db session_world))))
    by (simpl; repeat constructor; simpl; intuition discriminate).
  destruct (revokeAllUserSessions_spec 1 session_world Hstu)
    as (Hres & Hown & _ & _ & Hother).
  split; [exact Hres | split].
  - apply (Hown (sample_session 1 1 "tokA" "refA") 10); [simpl; left |]; reflexivity.
  - symmetry. vm_compute. symmetry.
    apply (Hother "tokB" 10); [vm_compute | vm_compute; discriminate]; reflexivity.
Defined.

(** ** Session lifetimes *)

Lemma refresh_outlives_map (f : Session -> Session) (l : list Session) :
  (forall s, refresh_outlives s -> refresh_outlives (f s)) ->
  Forall refresh_outlives l -> Forall refresh_outlives (map f l).
Proof.
  intros Hf Hl. apply Forall_map. eapply Forall_impl; [exact Hf | exact Hl].
Qed.

Lemma refresh_outlives_if (c : Session -> bool) (f : Session -> Session) (l : list Session) :
  (forall s, refresh_outlives s -> refresh_outlives (f s)) ->
  Forall refresh_outlives l ->
  Forall refresh_outlives (map (fun s => if c s then f s else s) l).
Proof.
  intros Hf. apply refresh_outlives_map. intros s Hs. destruct (c s); auto.
Qed.

Lemma refresh_outlives_fresh (t1 t2 : Time) : t1 <= t2 -> t1 + ACCESS_TTL < t2 + REFRESH_TTL.
Proof. unfold ACCESS_TTL, REFRESH_TTL. lia. Qed.

Lemma exec_op_outlives (op : SessionOp) (o : Oracle) (w : World) :
  clock_ok op -> Forall refresh_outlives (user_sessions (db w)) ->
  Forall refresh_outlives (user_sessions (db (snd (exec_op op o w)))).
Proof.
  intros Hclk Hinv. destruct w as [d tr]. simpl in Hinv.
  destruct op; simpl in Hclk;
    cbv [exec_op createSession validateSession refreshSession revokeSession
         revokeAllUserSessions try_catch bind query ret throw db trace];
    split_branches; simpl; try exact Hinv.
  all: first
    [ apply Forall_app; split; [exact Hinv |];
      apply Forall_cons; [| constructor];
      unfold refresh_outlives; simpl; apply refresh_outlives_fresh; exact Hclk
    | apply refresh_outlives_if; [| exact Hinv];
      intros x Hx; unfold refresh_outlives in *; simpl;
      first [exact Hx | apply refresh_outlives_fresh; exact Hclk] ].
Qed.

(** C9: from tables where every session's refresh expiry is later than
    its access expiry, any sequence of session requests (creations,
    validations, refreshes, revocations), whatever the backend fails,
    keeps every session's refresh expiry later than its access expiry;
    the two clock reads of a creation or a refresh come in order. *)
Theorem refresh_outlives_access (ops : list SessionOp) (o : Oracle) (w : World)
    (Hclk : Forall clock_ok ops)
    (Hinv : Forall refresh_outlives (user_sessions (db w))) :
  Forall refresh_outlives (user_sessions (db (snd (exec_ops ops o w)))).
Proof.
  revert w Hinv. induction Hclk as [| op ops Hop Hops IH]; intros w Hinv; simpl.
  - exact Hinv.
  - apply IH. apply exec_op_outlives; assumption.
Qed.

Lemma refresh_outlives_access_witness :
  Forall refresh_outlives
    (user_sessions (db (snd (exec_ops
       [OpCreate 1 "{}" "10.0.0.2" "agent" "tokC" "refC" 5 5;
        OpRefresh "refA" 10 10 11 "tokN" "refN";
        OpValidate "tokN" 20;
        OpRevokeAll 2] fault_free session_world)))).
Proof.
  apply refresh_outlives_access.
  - repeat (apply Forall_cons; [unfold clock_ok; first [exact I | lia] |]). apply Forall_nil.
  - vm_compute. repeat constructor.
Defined.

(** ** Input validation *)

Lemma match_piece_spec (p : Piece) (k : list Z -> bool) (n : nat) (s : list Z) :
  match_piece p k n s = true <->
  exists a s', s = a ++ s' /\ Forall (fun c => cls p c = true) a /\
    (lo p <= n + List.length a)%nat /\ hi_ok p (n + List.length a) = true /\ k s' = true.
Proof.
  revert n. induction s as [| c s IH]; intro n; simpl.
  - rewrite orb_false_r. split.
    + intro H. apply andb_true_iff in H as [H Hk]. apply andb_true_iff in H as [Hlo Hhi].
      exists [], []. simpl. rewrite Nat.add_0_r. apply Nat.leb_le in Hlo. auto.
    + intros (a & s' & Ha & Hf & Hlo & Hhi & Hk).
      destruct a; [| discriminate]. simpl in *. subst s'. rewrite Nat.add_0_r in *.
      apply Nat.leb_le in Hlo. rewrite Hlo, Hhi, Hk. reflexivity.
  - rewrite orb_true_iff, !andb_true_iff, IH. split.
    + intros [[[Hlo Hhi] Hk] | [[Hlt Hc] (a & s' & Ha & Hf & Hlo & Hhi & Hk)]].
      * exists [], (c :: s). simpl. rewrite Nat.add_0_r. apply Nat.leb_le in Hlo. auto.
      * exists (c :: a), s'. simpl. rewrite Ha. repeat split; auto.
        -- lia.
        -- match goal with |- hi_ok p ?x = true =>
             replace x with (S n + List.length a)%nat by (simpl; lia) end.
           exact Hhi.
    + intros (a & s' & Ha & Hf & Hlo & Hhi & Hk). destruct a as [| c' a].
      * left. simpl in *. subst s'. rewrite Nat.add_0_r in *.
        apply Nat.leb_le in Hlo. auto.
      * right. simpl in Ha. injection Ha as <- ->. apply Forall_cons_iff in Hf as [Hc Hf].
        split; [split; [| exact Hc] |].
        -- unfold hi_ok, hi_lt in *. simpl in Hhi. destruct (hi p); [| reflexivity].
           apply Nat.leb_le in Hhi. apply Nat.ltb_lt. lia.
        -- exists a, s'. simpl in *. repeat split; auto; [lia |].
           match goal with |- hi_ok p ?x = true =>
             replace x with (n + S (List.length a))%nat by (simpl; lia) end.
           exact Hhi.
Qed.

Lemma match_plus (k : Z -> bool) (rest : list Piece) (e : bool) (s : list Z) :
  match_pieces (plus k :: rest) e s = true <->
  exists a s', s = a ++ s' /\ a <> [] /\ Forall (fun c => k c = true) a /\
    match_pieces rest e s' = true.
Proof.
  simpl. rewrite match_piece_spec. simpl. split.
  - intros (a & s' & Ha & Hf & Hlo & _ & Hk). exists a, s'.
    repeat split; auto. intros ->. simpl in Hlo. lia.
  - intros (a & s' & Ha & Hne & Hf & Hk). exists a, s'. repeat split; auto.
    destruct a; [contradiction | simpl; lia].
Qed.

Lemma match_one (k : Z -> bool) (rest : list Piece) (e : bool) (s : list Z) :
  match_pieces (one k :: rest) e s = true <->
  exists c s', s = c :: s' /\ k c = true /\ match_pieces rest e s' = true.
Proof.
  simpl. rewrite match_piece_spec. simpl. split.
  - intros (a & s' & Ha & Hf & Hlo & Hhi & Hk).
    destruct a as [| c [| c' a]]; simpl in *; [lia | | discriminate].
    exists c, s'. inversion Hf. auto.
  - intros (c & s' & Hs & Hc & Hk). exists [c], s'. simpl. auto.
Qed.

Lemma match_star (k : Z -> bool) (rest : list Piece) (e : bool) (s : list Z) :
  match_pieces (star k :: rest) e s = true <->
  exists a s', s = a ++ s' /\ Forall (fun c => k c = true) a /\ match_pieces rest e s' = true.
Proof.
  simpl. rewrite match_piece_spec. simpl. split.
  - intros (a & s' & Ha & Hf & _ & _ & Hk). exists a, s'. auto.
  - intros (a & s' & Ha & Hf & Hk). exists a, s'. repeat split; auto. lia.
Qed.

Lemma match_end (s : list Z) : match_pieces [] true s = true <-> s = [].
Proof. destruct s; simpl; split; congruence. Qed.

(** Extra: [validateEmail] accepts exactly the strings [a@b.c] where [a],
    [b] and [c] are non-empty and hold neither [@] nor whitespace ([b] may
    hold dots). *)
Theorem validateEmail_spec (s : list Z) :
  validateEmail s = true <->
  exists a b c, s = a ++ 64 :: b ++ 46 :: c /\ a <> [] /\ b <> [] /\ c <> [] /\
    Forall (fun x => not_space_at x = true) a /\ Forall (fun x => not_space_at x = true) b /\
    Forall (fun x => not_space_at x = true) c.
Proof.
  unfold validateEmail, regex_test, emailRegex. simpl lookaheads. simpl body. simpl forallb.
  rewrite andb_true_l. split.
  - rewrite match_plus. intros (a & s1 & -> & Ha & Fa & H1).
    rewrite match_one in H1. destruct H1 as (c1 & s2 & -> & Hc1 & H2).
    apply Z.eqb_eq in Hc1. subst c1.
    rewrite match_plus in H2. destruct H2 as (b & s3 & -> & Hb & Fb & H3).
    rewrite match_one in H3. destruct H3 as (c2 & s4 & -> & Hc2 & H4).
    apply Z.eqb_eq in Hc2. subst c2.
    rewrite match_plus in H4. destruct H4 as (c & s5 & -> & Hc & Fc & H5).
    apply match_end in H5. subst s5. rewrite app_nil_r.
    exists a, b, c. auto 10.
  - intros (a & b & c & -> & Ha & Hb & Hc & Fa & Fb & Fc).
    apply match_plus. exists a, (64 :: b ++ 46 :: c). repeat split; auto.
    apply match_one. exists 64, (b ++ 46 :: c). repeat split; auto.
    apply match_plus. exists b, (46 :: c). repeat split; auto.
    apply match_one. exists 46, c. repeat split; auto.
    apply match_plus. exists c, []. rewrite app_nil_r. repeat split; auto.
Qed.

Lemma match_lookahead (k : Z -> bool) (s : list Z) :
  match_pieces [star any_char; one k] false s = true <->
  exists a c s', s = a ++ c :: s' /\ Forall (fun x => any_char x = true) a /\ k c = true.
Proof.
  rewrite match_star. split.
  - intros (a & s1 & -> & Fa & H). apply match_one in H as (c & s' & -> & Hc & _).
    exists a, c, s'. auto.
  - intros (a & c & s' & -> & Fa & Hc). exists a, (c :: s'). repeat split; auto.
    apply match_one. exists c, s'. auto.
Qed.

Lemma password_char_any (c : Z) : password_char c = true -> any_char c = true.
Proof.
  intro H. unfold any_char, is_line_terminator.
  destruct (Z.eqb_spec c 10); [subst; discriminate H |].
  destruct (Z.eqb_spec c 13); [subst; discriminate H |].
  destruct (Z.eqb_spec c 8232); [subst; discriminate H |].
  destruct (Z.eqb_spec c 8233); [subst; discriminate H |].
  reflexivity.
Qed.

Lemma lookahead_exists (k : Z -> bool) (s : list Z) :
  Forall (fun c => password_char c = true) s ->
  match_pieces [star any_char; one k] false s = true <-> Exists (fun c => k c = true) s.
Proof.
  intro Hs. rewrite match_lookahead. split.
  - intros (a & c & s' & -> & _ & Hc). apply Exists_app. right. constructor. exact Hc.
  - intro H. apply Exists_exists in H as (c & Hin & Hc).
    apply in_split in Hin as (a & s' & ->). exists a, c, s'. repeat split; auto.
    apply Forall_app in Hs as [Ha _]. eapply Forall_impl; [| exact Ha].
    intros x. apply password_char_any.
Qed.

Lemma match_password_body (s : list Z) :
  match_pieces [{| cls := password_char; lo := 8; hi := None |}] true s = true <->
  (8 <= List.length s)%nat /\ Forall (fun c => password_char c = true) s.
Proof.
  simpl. rewrite match_piece_spec. simpl. split.
  - intros (a & s' & -> & Fa & Hlo & _ & Hk). apply match_end in Hk. subst s'.
    rewrite app_nil_r. auto.
  - intros [Hlen Hs]. exists s, []. rewrite app_nil_r. auto.
Qed.

(** Extra: [validatePassword] accepts exactly the strings of at least 8
    characters, all letters A-Z or a-z, digits or one of [@$!%*?&], with at
    least one lower-case letter, one upper-case letter, one digit and one
    of the special characters. *)
Theorem validatePassword_spec (s : list Z) :
  validatePassword s = true <->
  (8 <= List.length s)%nat /\ Forall (fun c => password_char c = true) s /\
  Exists (fun c => is_lower c = true) s /\ Exists (fun c => is_upper c = true) s /\
  Exists (fun c => is_digit c = true) s /\ Exists (fun c => is_special c = true) s.
Proof.
  unfold validatePassword, regex_test, passwordRegex. cbn [forallb lookaheads body].
  rewrite andb_true_r, !andb_true_iff, match_password_body.
  split.
  - intros [[H1 [H2 [H3 H4]]] [Hlen Hs]].
    rewrite lookahead_exists in H1, H2, H3, H4 by exact Hs. tauto.
  - intros (Hlen & Hs & H1 & H2 & H3 & H4).
    rewrite !lookahead_exists by exact Hs. tauto.
Qed.

(** ** Sanitization *)

Lemma trim_start_in (s : list Z) (c : Z) : In c (trim_start s) -> In c s.
Proof.
  induction s as [| x s IH]; simpl; [tauto |].
  destruct (is_js_space x); simpl; auto.
Qed.

Lemma trim_in (s : list Z) (c : Z) : In c (trim s) -> In c s.
Proof.
  unfold trim. intro H. apply in_rev in H. apply trim_start_in in H.
  apply in_rev in H. apply trim_start_in in H. exact H.
Qed.

Lemma filter_all {A} (f : A -> bool) (l : list A) :
  (forall x, In x l -> f x = true) -> filter f l = l.
Proof.
  induction l as [| x l IH]; intro H; simpl; [reflexivity |].
  rewrite (H x (or_introl eq_refl)). f_equal. apply IH. intros y Hy. apply H. right. exact Hy.
Qed.

Lemma strip_angles_in (s : list Z) (c : Z) :
  In c (strip_angles s) -> In c s /\ c <> 60 /\ c <> 62.
Proof.
  unfold strip_angles. rewrite filter_In. intros [Hin Hc].
  destruct (Z.eqb_spec c 60), (Z.eqb_spec c 62); simpl in Hc; try discriminate.
  auto.
Qed.

(** Extra: a string sanitized by [sanitizeInput] holds no [<] and no [>],
    and only characters of the input; only strings are sanitized. *)
Theorem sanitizeInput_string (v : JSValue) (t : list Z) :
  sanitizeInput v = JSString t ->
  ~ In 60 t /\ ~ In 62 t /\ exists s, v = JSString s /\ incl t s.
Proof.
  destruct v; simpl; try discriminate. intro H. injection H as <-.
  split; [| split].
  - intro Hin. apply strip_angles_in in Hin. tauto.
  - intro Hin. apply strip_angles_in in Hin. tauto.
  - exists s. split; [reflexivity |]. intros c Hin.
    apply strip_angles_in in Hin as [Hin _]. apply trim_in. exact Hin.
Qed.

Lemma sanitizeInput_string_witness :
  sanitizeInput (JSString (units " <b>bold</b> ")) = JSString (units "bbold/b") /\
  ~ In 60 (units "bbold/b") /\ ~ In 62 (units "bbold/b") /\
  exists s, JSString (units " <b>bold</b> ") = JSString s /\ incl (units "bbold/b") s.
Proof.
  assert (H : sanitizeInput (JSString (units " <b>bold</b> ")) = JSString (units "bbold/b"))
    by (vm_compute; reflexivity).
  split; [exact H |]. exact (sanitizeInput_string _ _ H).
Defined.

(** Extra: sanitizing a second time only trims: removing [<] and [>] can
    leave whitespace at either end, which a second [sanitizeInput] removes,
    and it changes nothing else. *)
Theorem sanitizeInput_twice (v : JSValue) :
  sanitizeInput (sanitizeInput v) =
  match sanitizeInput v with JSString t => JSString (trim t) | w => w end.
Proof.
  destruct v; try reflexivity. simpl. f_equal.
  apply filter_all. intros c Hin. apply trim_in, strip_angles_in in Hin as (_ & H1 & H2).
  apply Z.eqb_neq in H1, H2. rewrite H1, H2. reflexivity.
Qed.

(** ** Client information *)

Lemma js_or_truthy (a b : JSValue) : truthy b = true -> truthy (js_or a b) = true.
Proof. unfold js_or. destruct (truthy a) eqn:E; auto. Qed.

(** Extra: [getClientInfo] throws exactly when the event itself is
    [undefined] or [null]; otherwise the client IP and the user agent it
    returns are both truthy (the fallbacks are non-empty strings). *)
Theorem getClientInfo_total (event : JSValue) :
  (forall e, getClientInfo event = inr e <-> (event = JSUndefined \/ event = JSNull) /\ e = TypeError) /\
  (forall ip ua, getClientInfo event = inl (ip, ua) -> truthy ip = true /\ truthy ua = true).
Proof.
  split.
  - intro e. destruct event; cbn;
      (split; [intro H; first [discriminate | injection H as <-; auto]
              | intros [[H | H] ->]; first [reflexivity | discriminate]]).
  - intros ip ua. unfold getClientInfo.
    destruct (get_prop event "headers"); [| discriminate].
    intro H. injection H as <- <-. split; repeat apply js_or_truthy; reflexivity.
Qed.

(** Extra: a truthy [x-forwarded-for] header is returned as the client IP
    as it is, ahead of [x-real-ip] and of the gateway's [sourceIp]. *)
Theorem getClientInfo_forwarded_first (event : JSValue) (hs : list (string * JSValue)) :
  get_prop event "headers" = inl (JSObject hs) ->
  truthy (assoc_get "x-forwarded-for" hs) = true ->
  exists ua, getClientInfo event = inl (assoc_get "x-forwarded-for" hs, ua).
Proof.
  intros Hh Hx. unfold getClientInfo. rewrite Hh.
  cbn [js_or truthy opt_get]. unfold js_or at 1. rewrite Hx. eexists. reflexivity.
Qed.

Lemma getClientInfo_forwarded_first_witness :
  exists ua, getClientInfo proxied_event = inl (JSString (units "203.0.113.7"), ua).
Proof.
  apply (getClientInfo_forwarded_first proxied_event
           [("x-forwarded-for", JSString (units "203.0.113.7"));
            ("x-real-ip", JSString (units "10.0.0.1"))]);
    vm_compute; reflexivity.
Defined.

(** ** Routing *)

Lemma prefix_app (a b s : string) : String.prefix (a ++ b) s = true -> String.prefix a s = true.
Proof.
  revert s. induction a as [| x a IH]; intros s H; [destruct s; reflexivity |].
  destruct s as [| y s]; simpl in H; [discriminate |].
  simpl. destruct (Ascii.ascii_dec x y); [apply IH; exact H | discriminate].
Qed.

Lemma includes_app (a b s : string) : includes (a ++ b) s = true -> includes a s = true.
Proof.
  induction s as [| y s IH]; intro H; cbn [includes] in H |- *;
    apply orb_true_iff in H as [H | H].
  - rewrite (prefix_app _ _ _ H). reflexivity.
  - discriminate.
  - rewrite (prefix_app _ _ _ H). reflexivity.
  - rewrite (IH H), orb_true_r. reflexivity.
Qed.

(** Extra: the router never reaches the log-out-everywhere handler: every
    path containing [/logout-all] also contains [/logout], whose branch
    comes first. *)
Theorem route_no_logout_all (httpMethod path : string) : route httpMethod path <> LogoutAll.
Proof.
  assert (Himp : includes "/logout-all" path = true -> includes "/logout" path = true)
    by (change "/logout-all" with ("/logout" ++ "-all")%string; apply includes_app).
  unfold route.
  destruct (String.eqb httpMethod "OPTIONS"); [discriminate |].
  destruct (String.eqb httpMethod "POST"); simpl.
  - destruct (includes "/logout-all" path) eqn:E2.
    + rewrite (Himp eq_refl).
      repeat match goal with |- context [if ?b then _ else _] => destruct b end; discriminate.
    + repeat match goal with |- context [if ?b then _ else _] => destruct b end; discriminate.
  - repeat match goal with |- context [if ?b then _ else _] => destruct b end; discriminate.
Qed.

(** ** Session lifecycle *)

Lemma select_valid_skip (tok : string) (now : Time) (us : list User) (l : list Session) (x : Session) :
  Forall (fun s => session_token s <> tok) l ->
  select_valid tok now us (l ++ [x]) = select_valid tok now us [x].
Proof.
  induction l as [| y l IH]; intro H; [reflexivity |].
  apply Forall_cons_iff in H as [Hy H]. apply String.eqb_neq in Hy.
  simpl. rewrite Hy. simpl. apply IH. exact H.
Qed.

(** Extra: a session created for an existing user with fresh tokens gets
    the next session id, and its session token then validates, at any time
    before its access expiry, to the context of that user and session. *)
Theorem createSession_validate (w : World) (uid : Z) (u : User) (dev ip ua tok rtok : string)
    (t1 t2 tv : Time)
    (Hu : find_user uid (users (db w)) = Some u)
    (Htok : Forall (fun s => session_token s <> tok) (user_sessions (db w)))
    (Hrtok : Forall (fun s => refresh_token s <> rtok) (user_sessions (db w)))
    (Htv : tv < t1 + ACCESS_TTL) :
  fst (run (createSession uid dev ip ua tok rtok t1 t2) w) =
    inl {| sessionId := next_session_id (db w); si_sessionToken := tok; si_refreshToken := rtok;
           si_expiresAt := t1 + ACCESS_TTL; si_refreshExpiresAt := t2 + REFRESH_TTL |} /\
  fst (run (validateSession tok tv) (snd (run (createSession uid dev ip ua tok rtok t1 t2) w))) =
    inl (Some {| c_sessionId := next_session_id (db w); c_userId := uid; c_email := email u;
                 c_name := name u; c_expiresAt := t1 + ACCESS_TTL;
                 c_refreshExpiresAt := t2 + REFRESH_TTL |}).
Proof.
  destruct w as [d tr]. simpl in *.
  assert (Hlt : (tv <? t1 + ACCESS_TTL) = true) by (apply Z.ltb_lt; exact Htv).
  cbv [run createSession try_catch bind query ret fault_free db trace].
  rewrite (token_free_fresh _ _ _ _ Htok), (token_free_fresh _ _ _ _ Hrtok).
  cbn [andb]. split; [reflexivity |].
  cbv [validateSession try_catch bind query ret]. simpl.
  rewrite select_valid_skip by exact Htok.
  cbn [select_valid session_token is_active expires_at user_id]. rewrite String.eqb_refl, Hlt, Hu.
  reflexivity.
Qed.

Lemma createSession_validate_witness :
  fst (run (createSession 1 "web" "1.2.3.4" "ua" "tokC" "refC" 0 0) session_world) =
    inl {| sessionId := 3; si_sessionToken := "tokC"; si_refreshToken := "refC";
           si_expiresAt := 0 + ACCESS_TTL; si_refreshExpiresAt := 0 + REFRESH_TTL |} /\
  fst (run (validateSession "tokC" 1000)
         (snd (run (createSession 1 "web" "1.2.3.4" "ua" "tokC" "refC" 0 0) session_world))) =
    inl (Some {| c_sessionId := 3; c_userId := 1; c_email := "a@example.org";
                 c_name := name (sample_user 1 "a@example.org"); c_expiresAt := 0 + ACCESS_TTL;
                 c_refreshExpiresAt := 0 + REFRESH_TTL |}).
Proof.
  apply (createSession_validate session_world 1 (sample_user 1 "a@example.org")
           "web" "1.2.3.4" "ua" "tokC" "refC" 0 0 1000).
  - reflexivity.
  - simpl. repeat constructor; simpl; discriminate.
  - simpl. repeat constructor; simpl; discriminate.
  - unfold ACCESS_TTL. lia.
Defined.

(** Extra: whatever the storage backend does, [createSession] either
    appends exactly one active session row, numbered with the next session
    id, for the given user and tokens, or throws "Failed to create
    session" and leaves the tables as they were. *)
Theorem createSession_outcome (uid : Z) (dev ip ua tok rtok : string) (t1 t2 : Time)
    (o : Oracle) (w : World) :
  match createSession uid dev ip ua tok rtok t1 t2 o w with
  | (inl si, w') =>
      sessionId si = next_session_id (db w) /\
      next_session_id (db w') = next_session_id (db w) + 1 /\
      users (db w') = users (db w) /\
      exists s, user_sessions (db w') = user_sessions (db w) ++ [s] /\
        s_id s = sessionId si /\ user_id s = uid /\ session_token s = tok /\
        refresh_token s = rtok /\ is_active s = true
  | (inr e, w') => e = AppError "Failed to create session" /\ db w' = db w
  end.
Proof.
  destruct w as [d tr].
  cbv [createSession try_catch bind query ret throw db trace].
  destruct (o _ _); [split; reflexivity |].
  destruct (_ && _); [| split; reflexivity].
  cbn. split; [reflexivity |]. split; [reflexivity |]. split; [reflexivity |].
  eexists. repeat split.
Qed.

Lemma token_free_held (sid : Z) (tok : string) (sel : Session -> string) (l : list Session) (s : Session) :
  In s l -> sel s = tok -> s_id s <> sid -> token_free sid tok sel l = false.
Proof.
  intros Hin Hsel Hid. unfold token_free. apply not_true_iff_false. intro H.
  rewrite forallb_forall in H. specialize (H s Hin).
  apply Z.eqb_neq in Hid. rewrite Hid, Hsel, String.eqb_refl in H. discriminate.
Qed.

(** Extra: when one of the tokens is already held by a stored session,
    [createSession] throws "Failed to create session" and the tables are
    unchanged; stored session ids are below the next one (the id
    sequence). *)
Theorem createSession_rejects (w : World) (uid : Z) (dev ip ua tok rtok : string) (t1 t2 : Time)
    (Hids : Forall (fun s => s_id s < next_session_id (db w)) (user_sessions (db w)))
    (Hheld : exists s, In s (user_sessions (db w)) /\ (session_token s = tok \/ refresh_token s = rtok)) :
  run (createSession uid dev ip ua tok rtok t1 t2) w =
    (inr (AppError "Failed to create session"),
     {| db := db w; trace := trace w ++ [(user_sessions_t, false)] |}).
Proof.
  destruct w as [d tr]. simpl in *.
  assert (Hc : token_free (next_session_id d) tok session_token (user_sessions d)
               && token_free (next_session_id d) rtok refresh_token (user_sessions d) = false).
  { destruct Hheld as (s & Hin & [Ht | Ht]);
      rewrite Forall_forall in Hids; specialize (Hids s Hin).
    - rewrite (token_free_held _ _ _ _ s Hin Ht) by lia. reflexivity.
    - rewrite (token_free_held _ _ _ _ s Hin Ht) by lia. apply andb_false_r. }
  cbv [run createSession try_catch bind query ret throw fault_free db trace].
  rewrite Hc. reflexivity.
Qed.

Lemma createSession_rejects_witness :
  run (createSession 1 "web" "1.2.3.4" "ua" "tokB" "refC" 0 0) session_world =
    (inr (AppError "Failed to create session"),
     {| db := db session_world; trace := trace session_world ++ [(user_sessions_t, false)] |}).
Proof.
  apply createSession_rejects.
  - simpl. repeat constructor; simpl; lia.
  - exists (sample_session 2 2 "tokB" "refB"). simpl. split; [right; left; reflexivity |].
    left. reflexivity.
Defined.

Lemma select_refreshable_some (rt : string) (now : Time) (l : list Session) (s : Session) :
  select_refreshable rt now l = Some s -> In s l /\ refresh_token s = rt.
Proof.
  induction l as [| x l IH]; simpl; [discriminate |].
  destruct (String.eqb (refresh_token x) rt && is_active x && (now <? refresh_expires_at x)) eqn:E.
  - intro H. injection H as <-. apply andb_true_iff in E as [E _]. apply andb_true_iff in E as [E _].
    apply String.eqb_eq in E. auto.
  - intro H. destruct (IH H). auto.
Qed.

(** A session switched off by an update that touches nothing but
    [is_active] can no longer be refreshed with its refresh token. *)
Lemma refresh_after_deactivate (g : Session -> Session) (l : list Session) (s : Session) (now : Time) :
  NoDup (map refresh_token l) -> In s l ->
  (forall x, g x = x \/ g x = s_deactivate x) -> g s = s_deactivate s ->
  select_refreshable (refresh_token s) now (map g l) = None.
Proof.
  intros Hnd Hin Hg Hs.
  assert (Hmap : map refresh_token (map g l) = map refresh_token l).
  { rewrite map_map. apply map_ext. intro x. destruct (Hg x) as [-> | ->]; reflexivity. }
  rewrite (select_refreshable_unique (refresh_token s) now (map g l) (g s)).
  - rewrite Hs. reflexivity.
  - rewrite Hmap. exact Hnd.
  - apply in_map. exact Hin.
  - rewrite Hs. reflexivity.
Qed.

(** Extra: revoking a session token never throws: it returns true, or
    false with the tables unchanged. Without a storage failure it returns
    true, the token no longer validates, the session it names can no
    longer be refreshed, and the sessions holding other tokens and the
    users are unchanged; refresh tokens are unique. *)
Theorem revokeSession_spec (tok : string) (w : World)
    (Hrtu : NoDup (map refresh_token (user_sessions (db w)))) :
  (forall o, fst (revokeSession tok o w) = inl true \/
             (fst (revokeSession tok o w) = inl false /\ db (snd (revokeSession tok o w)) = db w)) /\
  fst (run (revokeSession tok) w) = inl true /\
  (forall tv, fst (run (validateSession tok tv) (snd (run (revokeSession tok) w))) = inl None) /\
  (forall s now t1 t2 nt nrt, In s (user_sessions (db w)) -> session_token s = tok ->
     fst (run (refreshSession (refresh_token s) now t1 t2 nt nrt) (snd (run (revokeSession tok) w)))
     = inl None) /\
  filter (fun s => negb (String.eqb (session_token s) tok))
    (user_sessions (db (snd (run (revokeSession tok) w)))) =
  filter (fun s => negb (String.eqb (session_token s) tok)) (user_sessions (db w)) /\
  users (db (snd (run (revokeSession tok) w))) = users (db w).
Proof.
  destruct w as [d tr]. simpl in Hrtu.
  set (g := fun s => if String.eqb (session_token s) tok then s_deactivate s else s).
  assert (Hg : forall x, g x = x \/ g x = s_deactivate x)
    by (intro x; subst g; simpl; destruct (String.eqb (session_token x) tok); auto).
  assert (Hrun : run (revokeSession tok) {| db := d; trace := tr |} =
                 (inl true, {| db := set_user_sessions d (map g (user_sessions d));
                               trace := tr ++ [(user_sessions_t, false)] |}))
    by reflexivity.
  split; [| rewrite Hrun; simpl; split; [reflexivity |]; split; [| split; [| split]]].
  - intro o. cbv [revokeSession try_catch bind query ret db trace].
    destruct (o _ _); [right; split; reflexivity | left; reflexivity].
  - intro tv. apply validate_absent. simpl.
    apply Forall_forall. intros y Hy. apply in_map_iff in Hy as (x & <- & _).
    subst g. simpl. destruct (String.eqb (session_token x) tok) eqn:E.
    + right. reflexivity.
    + left. apply String.eqb_neq. exact E.
  - intros s now t1 t2 nt nrt Hin Htok.
    cbv [run refreshSession try_catch bind query ret fault_free db trace]. simpl.
    rewrite (refresh_after_deactivate g _ s now Hrtu Hin Hg);
      [reflexivity | subst g; simpl; rewrite Htok, String.eqb_refl; reflexivity].
  - simpl. clear Hrun Hrtu Hg. induction (user_sessions d) as [| x l IH]; [reflexivity |].
    simpl. subst g. simpl. destruct (String.eqb (session_token x) tok) eqn:E; simpl; rewrite E;
      simpl; [exact IH | f_equal; exact IH].
  - reflexivity.
Qed.

Lemma revokeSession_spec_witness :
  fst (run (revokeSession "tokA") session_world) = inl true /\
  fst (run (refreshSession "refA" 0 0 0 "tokN" "refN") (snd (run (revokeSession "tokA") session_world)))
  = inl None.
Proof.
  assert (Hrtu : NoDup (map refresh_token (user_sessions (db session_world))))
    by (simpl; repeat constructor; simpl; intuition discriminate).
  destruct (revokeSession_spec "tokA" session_world Hrtu) as (_ & Hok & _ & Href & _).
  split; [exact Hok |].
  apply (Href (sample_session 1 1 "tokA" "refA")); [simpl; left |]; reflexivity.
Defined.

(** Extra: validating a session token never throws, whatever the storage
    backend does, and changes nothing but the [last_used] time of
    sessions: expiries, tokens and activity of every session, and the other
    tables, are as before. *)
Theorem validateSession_frame (tok : string) (now : Time) (o : Oracle) (w : World) :
  (exists r, fst (validateSession tok now o w) = inl r) /\
  map (s_touch 0) (user_sessions (db (snd (validateSession tok now o w)))) =
    map (s_touch 0) (user_sessions (db w)) /\
  users (db (snd (validateSession tok now o w))) = users (db w) /\
  rate_limits (db (snd (validateSession tok now o w))) = rate_limits (db w) /\
  security_audit_log (db (snd (validateSession tok now o w))) = security_audit_log (db w) /\
  next_session_id (db (snd (validateSession tok now o w))) = next_session_id (db w).
Proof.
  destruct w as [d tr].
  cbv [validateSession try_catch bind query ret db trace].
  destruct (o _ _); [repeat split; eexists; reflexivity |].
  destruct (select_valid tok now (users d) (user_sessions d)) as [[s u] |];
    [| repeat split; eexists; reflexivity].
  destruct (o _ _); [repeat split; eexists; reflexivity |].
  simpl. split; [eexists; reflexivity |]. repeat split.
  rewrite map_map. apply map_ext. intro x. destruct (s_id x =? s_id s); reflexivity.
Qed.

(** Extra: once a refresh has rotated a session, its old refresh token no
    longer refreshes anything, whatever the clock and the new tokens of
    the later call; refresh tokens are unique and the new refresh token
    differs from the old one. *)
Theorem refreshSession_old_token_dead (w : World) (rt : string) (now t1 t2 : Time) (nt nrt : string)
    (Hrtu : NoDup (map refresh_token (user_sessions (db w)))) (Hnew : nrt <> rt) :
  forall r, fst (run (refreshSession rt now t1 t2 nt nrt) w) = inl (Some r) ->
  forall now' t1' t2' nt' nrt',
    fst (run (refreshSession rt now' t1' t2' nt' nrt')
           (snd (run (refreshSession rt now t1 t2 nt nrt) w))) = inl None.
Proof.
  destruct w as [d tr]. simpl in Hrtu. intros r Hr now' t1' t2' nt' nrt'.
  cbv [run refreshSession try_catch bind query ret fault_free db trace] in Hr |- *.
  destruct (select_refreshable rt now (user_sessions d)) as [s |] eqn:Hs; [| discriminate].
  destruct (token_free (s_id s) nt session_token (user_sessions d)
            && token_free (s_id s) nrt refresh_token (user_sessions d)); [| discriminate].
  apply select_refreshable_some in Hs as [Hin Hrt].
  simpl. rewrite select_refreshable_absent; [reflexivity |].
  rewrite map_map. intro Hy. apply in_map_iff in Hy as (x & Hx & Hxin).
  destruct (s_id x =? s_id s) eqn:E; simpl in Hx; [congruence |].
  apply Z.eqb_neq in E. apply E. f_equal.
  apply (NoDup_map_same refresh_token _ x s Hrtu Hxin Hin). congruence.
Qed.

Lemma refreshSession_old_token_dead_witness :
  fst (run (refreshSession "refA" 0 0 0 "tokX" "refY")
         (snd (run (refreshSession "refA" 0 0 0 "tokN" "refN") session_world))) = inl None.
Proof.
  apply (refreshSession_old_token_dead session_world "refA" 0 0 0 "tokN" "refN")
    with (r := {| r_sessionId := 1; r_userId := 1; r_sessionToken := "tokN";
                  r_refreshToken := "refN"; r_expiresAt := 0 + ACCESS_TTL;
                  r_refreshExpiresAt := 0 + REFRESH_TTL |}).
  - simpl. repeat constructor; simpl; intuition discriminate.
  - discriminate.
  - vm_compute. reflexivity.
Defined.

(** Extra: after all sessions of a user are revoked, none of that user's
    refresh tokens refreshes any more; refresh tokens are unique. *)
Theorem revokeAll_blocks_refresh (owner : Z) (w : World)
    (Hrtu : NoDup (map refresh_token (user_sessions (db w)))) :
  forall s now t1 t2 nt nrt, In s (user_sessions (db w)) -> user_id s = owner ->
  fst (run (refreshSession (refresh_token s) now t1 t2 nt nrt)
         (snd (run (revokeAllUserSessions owner) w))) = inl None.
Proof.
  destruct w as [d tr]. simpl in Hrtu. intros s now t1 t2 nt nrt Hin Hown.
  set (g := fun s => if user_id s =? owner then s_deactivate s else s).
  assert (Hg : forall x, g x = x \/ g x = s_deactivate x)
    by (intro x; subst g; simpl; destruct (user_id x =? owner); auto).
  cbv [run revokeAllUserSessions refreshSession try_catch bind query ret fault_free db trace].
  simpl. fold g.
  rewrite (refresh_after_deactivate g _ s now Hrtu Hin Hg);
    [reflexivity | subst g; simpl; rewrite Hown, Z.eqb_refl; reflexivity].
Qed.

Lemma revokeAll_blocks_refresh_witness :
  fst (run (refreshSession "refB" 0 0 0 "tokN" "refN")
         (snd (run (revokeAllUserSessions 2) session_world))) = inl None.
Proof.
  apply (revokeAll_blocks_refresh 2 session_world) with (s := sample_session 2 2 "tokB" "refB").
  - simpl. repeat constructor; simpl; intuition discriminate.
  - simpl. right. left. reflexivity.
  - reflexivity.
Defined.

(** ** Lockout and login bookkeeping *)

(** Extra: the lockout check never throws, whatever the storage backend
    does, and it answers true exactly when its read of the user succeeds,
    finds the user, and the recorded lock lies after the first clock read:
    an unknown user or a failed read counts as not locked. *)
Theorem checkAccountLockout_spec (uid : Z) (now1 now2 : Time) (o : Oracle) (w : World) :
  (exists b, fst (checkAccountLockout uid now1 now2 o w) = inl b) /\
  (fst (checkAccountLockout uid now1 now2 o w) = inl true <->
   o (List.length (trace w)) users_t = false /\
   exists u, find_user uid (users (db w)) = Some u /\ is_future (locked_until u) now1 = true).
Proof.
  destruct w as [d tr]. cbn [trace db].
  cbv [checkAccountLockout try_catch bind query ret db trace].
  destruct (o _ users_t) eqn:Ho.
  - split; [eexists; reflexivity |]. split; [discriminate | intros [H _]; discriminate].
  - destruct (find_user uid (users d)) as [u |] eqn:Hu.
    + destruct (is_future (locked_until u) now1) eqn:Hf.
      * split; [eexists; reflexivity |]. split; [intros _; split; [reflexivity | eauto] | reflexivity].
      * assert (Hno : ~ (false = false /\ exists u', Some u = Some u' /\ is_future (locked_until u') now1 = true)).
        { intros [_ (u' & Hu' & Hf')]. injection Hu' as <-. congruence. }
        destruct (locked_until u) as [lu |];
          [destruct (lu <=? now2); [destruct (o (List.length (tr ++ [(users_t, false)])) users_t) |] |];
          (split; [eexists; reflexivity |]); (split; [discriminate | intro H; exfalso; exact (Hno H)]).
    + split; [eexists; reflexivity |].
      split; [discriminate | intros [_ (u' & Hu' & _)]; discriminate].
Qed.

Lemma update_user_absent (uid : Z) (f : User -> User) (l : list User) :
  find_user uid l = None -> map (fun u => if u_id u =? uid then f u else u) l = l.
Proof.
  induction l as [| u us IH]; simpl; [reflexivity |].
  destruct (u_id u =? uid); [discriminate |]. intro H. f_equal. exact (IH H).
Qed.

Lemma filter_id_absent (uid : Z) (l : list User) :
  find_user uid l = None -> filter (fun v => u_id v =? uid) l = [].
Proof.
  induction l as [| u us IH]; simpl; [reflexivity |].
  destruct (u_id u =? uid); [discriminate | exact IH].
Qed.

(** Extra: a failed login for an unknown user, or one whose update of the
    users table fails, returns zero attempts and no lock, never throws, and
    leaves the users table unchanged. *)
Theorem handleFailedLogin_noop (uid : Z) (ip ua : option string) (now : Time) (o : Oracle) (w : World)
    (Hcase : find_user uid (users (db w)) = None \/ o (List.length (trace w)) users_t = true) :
  fst (handleFailedLogin uid ip ua now o w) =
    inl {| attempts := 0; locked := false; lockoutExpires := None |} /\
  users (db (snd (handleFailedLogin uid ip ua now o w))) = users (db w).
Proof.
  destruct w as [d tr]. cbn [trace db] in Hcase.
  cbv [handleFailedLogin try_catch bind query ret throw db trace].
  destruct (o _ users_t) eqn:Ho; [split; reflexivity |].
  destruct Hcase as [Hu | Hc]; [| discriminate].
  unfold update_user. cbn [users set_users].
  rewrite update_user_absent, filter_id_absent by exact Hu. split; reflexivity.
Qed.

Lemma handleFailedLogin_noop_witness :
  fst (run (handleFailedLogin 9 None None 0) session_world) =
    inl {| attempts := 0; locked := false; lockoutExpires := None |} /\
  users (db (snd (run (handleFailedLogin 9 None None 0) session_world))) = users (db session_world).
Proof.
  apply handleFailedLogin_noop. left. reflexivity.
Defined.

(** Extra: [locked] in the answer to a failed login reports any lock still
    recorded on the user, even one that has already run out: below the
    threshold the lock time is passed back unchanged. *)
Theorem handleFailedLogin_stale_lock (uid : Z) (ip ua : option string) (now : Time) (w : World)
    (u : User) (lu : Time)
    (Hu : find_user uid (users (db w)) = Some u) (Hlu : locked_until u = Some lu)
    (Hbelow : failed_login_attempts u + 1 < threshold ACCOUNT_LOCKOUT) :
  fst (run (handleFailedLogin uid ip ua now) w) =
    inl {| attempts := failed_login_attempts u + 1; locked := true; lockoutExpires := Some lu |}.
Proof.
  destruct w as [d tr]. cbn [db] in Hu.
  assert (Hu' : find_user uid (users (update_user uid (u_fail now) d)) = Some (u_fail now u)).
  { unfold update_user. simpl. rewrite find_user_update by reflexivity. rewrite Hu. reflexivity. }
  destruct (filter_id_found _ _ _ Hu') as [rest Hrest].
  cbv [run handleFailedLogin try_catch bind query ret fault_free db trace logSecurityEvent].
  rewrite Hrest.
  unfold u_fail. cbn [failed_login_attempts locked_until].
  replace (threshold ACCOUNT_LOCKOUT <=? failed_login_attempts u + 1) with false
    by (symmetry; apply Z.leb_gt; exact Hbelow).
  rewrite Hlu. reflexivity.
Qed.

Lemma handleFailedLogin_stale_lock_witness :
  fst (run (handleFailedLogin 7 None None 100) stale_lock_world) =
    inl {| attempts := 0 + 1; locked := true; lockoutExpires := Some 0 |}.
Proof.
  apply (handleFailedLogin_stale_lock 7 None None 100 stale_lock_world
           (hd (sample_user 0 "") (users (db stale_lock_world))) 0);
    [reflexivity | reflexivity | simpl; lia].
Defined.

(** Extra: a successful login never throws, whatever the storage backend
    does; without a storage failure it clears the failed attempts and the
    lock of the user and records the login time. *)
Theorem handleSuccessfulLogin_spec (uid : Z) (ip ua : option string) (now : Time) (w : World) :
  (forall o, fst (handleSuccessfulLogin uid ip ua now o w) = inl tt) /\
  find_user uid (users (db (snd (run (handleSuccessfulLogin uid ip ua now) w)))) =
    option_map (u_login now) (find_user uid (users (db w))).
Proof.
  destruct w as [d tr]. split.
  - intro o. cbv [handleSuccessfulLogin try_catch bind query ret db trace logSecurityEvent].
    destruct (o (List.length tr) users_t); [reflexivity |].
    destruct (o _ security_audit_log_t); reflexivity.
  - cbv [run handleSuccessfulLogin try_catch bind query ret fault_free
         logSecurityEvent db trace].
    cbn. unfold update_user. cbn. apply find_user_update. reflexivity.
Qed.

(** ** Rate-limit bookkeeping *)

Lemma rl_matches_same (i e : string) (r r' : RateLimit) :
  identifier r' = identifier r -> endpoint r' = endpoint r -> rl_matches i e r' = rl_matches i e r.
Proof. intros Hi He. unfold rl_matches. rewrite Hi, He. reflexivity. Qed.

Lemma rl_matches_other (ident ep i e : string) (r : RateLimit) :
  (i, e) <> (ident, ep) -> rl_matches ident ep r = true -> rl_matches i e r = false.
Proof.
  unfold rl_matches. intros Hne H. apply andb_true_iff in H as [H1 H2].
  apply String.eqb_eq in H1, H2. apply not_true_iff_false. intro H.
  apply andb_true_iff in H as [H3 H4]. apply String.eqb_eq in H3, H4.
  apply Hne. congruence.
Qed.

Lemma rl_rows_update_other (ident ep i e : string) (f : RateLimit -> RateLimit) (d : DB) :
  (forall r, identifier (f r) = identifier r /\ endpoint (f r) = endpoint r) ->
  (i, e) <> (ident, ep) -> rl_rows (update_rl ident ep f d) i e = rl_rows d i e.
Proof.
  intros Hf Hne. unfold rl_rows, update_rl. simpl.
  induction (rate_limits d) as [| r rs IH]; simpl; [reflexivity |].
  destruct (rl_matches ident ep r) eqn:E.
  - destruct (Hf r) as [H1 H2]. rewrite (rl_matches_same i e r (f r) H1 H2).
    rewrite (rl_matches_other ident ep i e r Hne E). exact IH.
  - destruct (rl_matches i e r); [f_equal |]; exact IH.
Qed.

Lemma rl_rows_append_other (ident ep i e : string) (d : DB) (r : RateLimit) :
  identifier r = ident -> endpoint r = ep -> (i, e) <> (ident, ep) ->
  rl_rows (set_rate_limits d (rate_limits d ++ [r])) i e = rl_rows d i e.
Proof.
  intros Hi He Hne. unfold rl_rows. simpl. rewrite filter_app. simpl.
  replace (rl_matches i e r) with false; [apply app_nil_r |].
  symmetry. apply (rl_matches_other ident ep). exact Hne.
  unfold rl_matches. rewrite Hi, He, !String.eqb_refl. reflexivity.
Qed.

(** Extra: whatever the storage backend does, the rate-limit check of one
    identifier and endpoint leaves the users, the sessions and the
    rate-limit rows of every other identifier and endpoint unchanged, and
    adds at most one event, a failed "rate_limit_exceeded", to the audit
    log. *)
Theorem checkRateLimit_frame (ident ep : string) (ip : option string) (now : Time)
    (o : Oracle) (w : World) :
  users (db (snd (checkRateLimit ident ep ip now o w))) = users (db w) /\
  user_sessions (db (snd (checkRateLimit ident ep ip now o w))) = user_sessions (db w) /\
  next_session_id (db (snd (checkRateLimit ident ep ip now o w))) = next_session_id (db w) /\
  (forall i e, (i, e) <> (ident, ep) ->
     rl_rows (db (snd (checkRateLimit ident ep ip now o w))) i e = rl_rows (db w) i e) /\
  (security_audit_log (db (snd (checkRateLimit ident ep ip now o w))) = security_audit_log (db w) \/
   exists ev, security_audit_log (db (snd (checkRateLimit ident ep ip now o w))) =
                security_audit_log (db w) ++ [ev] /\
              event_type ev = "rate_limit_exceeded" /\ success ev = false).
Proof.
  destruct w as [d tr].
  cbv [checkRateLimit try_catch bind query ret logSecurityEvent db trace].
  split_branches;
    (split; [reflexivity |]); (split; [reflexivity |]); (split; [reflexivity |]);
    (split;
       [intros i e Hne; rewrite ?rl_rows_set_audit_log;
        first [ reflexivity
              | apply rl_rows_update_other; [intro; split; reflexivity | exact Hne]
              | apply (rl_rows_append_other ident ep); [reflexivity | reflexivity | exact Hne] ]
       | first [left; reflexivity | right; eexists; split; [reflexivity | split; reflexivity]]]).
Qed.

(** ** Encrypted data storage *)

Lemma latest_enc_last (l : list EncRow) (x : EncRow) :
  Forall (fun r => ed_created_at r < ed_created_at x) l -> latest_enc (l ++ [x]) = Some x.
Proof.
  induction l as [| r l IH]; intro H; [reflexivity |].
  apply Forall_cons_iff in H as [Hr H]. simpl. rewrite (IH H).
  apply Z.ltb_lt in Hr. rewrite Hr. reflexivity.
Qed.

Lemma filter_ids_below (l : list EncRow) (i : Z) (f : EncRow -> bool) :
  Forall (fun r => ed_id r < i) l -> filter (fun r => (ed_id r =? i) && f r) l = [].
Proof.
  induction l as [| r l IH]; intro H; [reflexivity |].
  apply Forall_cons_iff in H as [Hr H]. simpl.
  replace (ed_id r =? i) with false by (symmetry; apply Z.eqb_neq; lia). exact (IH H).
Qed.

(** Extra: data stored for a user and a data type, then read back through
    the same manager, by data type or by the id the store returned, is
    the data stored; the record must survive JSON round-tripping, earlier
    rows are older, and earlier ids are below the next one. *)
Theorem store_retrieve_roundtrip (L : CryptoLib) (HL : CryptoLaws L) (em : EncryptionManager)
    (uid : Z) (ty : string) (x : json L) (salt_buf iv_buf : list byte) (now : Time) (st : EncStore)
    (Hx : parse L (stringify L x) = Some x)
    (Hold : Forall (fun r => ed_created_at r < now) (enc_rows st))
    (Hids : Forall (fun r => ed_id r < next_enc_id st) (enc_rows st))
    (Hpos : 0 < next_enc_id st) :
  fst (storeEncryptedData em uid ty x salt_buf iv_buf now false st) = inl (next_enc_id st) /\
  retrieveEncryptedData em uid ty None false
    (snd (storeEncryptedData em uid ty x salt_buf iv_buf now false st)) = inl (Some x) /\
  retrieveEncryptedData em uid ty (Some (next_enc_id st)) false
    (snd (storeEncryptedData em uid ty x salt_buf iv_buf now false st)) = inl (Some x).
Proof.
  assert (Hdec : decrypt em (encrypt em x salt_buf iv_buf) = inl x).
  { unfold decrypt, encrypt, deriveKey. simpl. rewrite String.eqb_refl. simpl.
    rewrite !(b64_roundtrip L HL), (aead_roundtrip L HL), Hx. reflexivity. }
  split; [reflexivity |].
  unfold storeEncryptedData, retrieveEncryptedData. cbn [fst snd enc_rows].
  rewrite !filter_app. cbn [filter ed_id ed_user_id data_type].
  rewrite Z.eqb_refl, String.eqb_refl. cbn [andb].
  split.
  - rewrite latest_enc_last; [cbn [encrypted_data]; rewrite Hdec; reflexivity |].
    apply Forall_forall. intros r Hr. apply filter_In in Hr as [Hr _].
    rewrite Forall_forall in Hold. exact (Hold r Hr).
  - replace (next_enc_id st =? 0) with false by (symmetry; apply Z.eqb_neq; lia).
    rewrite filter_ids_below by exact Hids. cbn [app hd_error encrypted_data].
    rewrite Z.eqb_refl. cbn [andb hd_error encrypted_data]. rewrite Hdec. reflexivity.
Qed.

Lemma store_retrieve_roundtrip_witness :
  retrieveEncryptedData (L := toy_lib) {| masterKey := "master" |} 1 "profile" None false stored_once
  = inl (Some sample_payload).
Proof.
  apply (store_retrieve_roundtrip toy_lib toy_laws {| masterKey := "master" |} 1 "profile"
           sample_payload (list_byte_of_string "salt") (list_byte_of_string "iv") 100
           empty_enc_store); (reflexivity || constructor || (simpl; lia)).
Defined.

(** Extra: a record asked for by a non-zero id that belongs to another
    user is not returned: the answer is [null]. *)
Theorem retrieve_other_user (L : CryptoLib) (em : EncryptionManager) (uid : Z) (ty : string)
    (i : Z) (st : EncStore)
    (Hi : i <> 0)
    (Hown : Forall (fun r => ed_id r = i -> ed_user_id r <> uid) (enc_rows st)) :
  retrieveEncryptedData (L := L) em uid ty (Some i) false st = inl None.
Proof.
  unfold retrieveEncryptedData. cbn [negb].
  replace (i =? 0) with false by (symmetry; apply Z.eqb_neq; exact Hi).
  replace (filter (fun r => (ed_id r =? i) && (ed_user_id r =? uid)) (enc_rows st)) with (@nil EncRow);
    [reflexivity |].
  induction (enc_rows st) as [| r l IH]; [reflexivity |].
  apply Forall_cons_iff in Hown as [Hr Hown]. simpl.
  destruct (Z.eqb_spec (ed_id r) i) as [E | E]; simpl; [| exact (IH Hown)].
  replace (ed_user_id r =? uid) with false by (symmetry; apply Z.eqb_neq; exact (Hr E)).
  exact (IH Hown).
Qed.

Lemma retrieve_other_user_witness :
  retrieveEncryptedData (L := toy_lib) {| masterKey := "master" |} 2 "profile" (Some 1) false stored_once
  = inl None.
Proof.
  apply retrieve_other_user; [lia |].
  vm_compute. constructor; [intros _; discriminate | constructor].
Defined.

(** Extra: a record stored through a manager whose key id differs from the
    reading manager's cannot be read back: the retrieval throws "Failed to
    retrieve encrypted data"; earlier rows are older and earlier ids are
    below the next one. *)
Theorem retrieve_other_key (L : CryptoLib) (em1 em2 : EncryptionManager) (uid : Z) (ty : string)
    (x : json L) (salt_buf iv_buf : list byte) (now : Time) (st : EncStore)
    (Hid : keyId_of (masterKey em1) <> keyId_of (masterKey em2))
    (Hold : Forall (fun r => ed_created_at r < now) (enc_rows st)) :
  retrieveEncryptedData (L := L) em2 uid ty None false
    (snd (storeEncryptedData em1 uid ty x salt_buf iv_buf now false st))
  = inr (AppError "Failed to retrieve encrypted data").
Proof.
  unfold storeEncryptedData, retrieveEncryptedData. cbn [fst snd enc_rows].
  rewrite filter_app. cbn [filter ed_id ed_user_id data_type].
  rewrite Z.eqb_refl, String.eqb_refl. cbn [andb].
  rewrite latest_enc_last.
  - cbn [encrypted_data]. unfold decrypt, encrypt. cbn [keyId].
    destruct (String.eqb_spec (keyId_of (masterKey em1)) (keyId_of (masterKey em2)));
      [contradiction | reflexivity].
  - apply Forall_forall. intros r Hr. apply filter_In in Hr as [Hr _].
    rewrite Forall_forall in Hold. exact (Hold r Hr).
Qed.

Lemma retrieve_other_key_witness :
  retrieveEncryptedData (L := toy_lib) {| masterKey := "b" |} 1 "profile" None false
    (snd (storeEncryptedData (L := toy_lib) {| masterKey := "a" |} 1 "profile" sample_payload
            (list_byte_of_string "salt") (list_byte_of_string "iv") 100 false empty_enc_store))
  = inr (AppError "Failed to retrieve encrypted data").
Proof.
  apply retrieve_other_key; [vm_compute; discriminate | constructor].
Defined.

(** ** Tokens *)

Lemma hex_length (bs : list Z) : String.length (hex bs) = (2 * List.length bs)%nat.
Proof. induction bs as [| b bs IH]; simpl; [reflexivity | rewrite IH; lia]. Qed.

Lemma nth_hex_inj (n m : nat) :
  (n < 16)%nat -> (m < 16)%nat -> nth n hex_alphabet "0"%char = nth m hex_alphabet "0"%char -> n = m.
Proof.
  intros Hn Hm.
  do 16 (destruct n as [| n];
         [do 16 (destruct m as [| m];
                 [intro H; vm_compute in H; first [reflexivity | discriminate H] |]); lia |]).
  lia.
Qed.

Lemma hex_char_inj (a b : Z) :
  0 <= a < 16 -> 0 <= b < 16 -> hex_char a = hex_char b -> a = b.
Proof.
  intros Ha Hb H. unfold hex_char in H. apply nth_hex_inj in H; lia.
Qed.

Lemma byte_digits (b : Z) : 0 <= b < 256 -> 0 <= b / 16 < 16 /\ 0 <= b mod 16 < 16.
Proof.
  intro Hb. split.
  - split; [apply Z.div_pos; lia | apply Z.div_lt_upper_bound; lia].
  - apply Z.mod_pos_bound. lia.
Qed.

(** Extra: a session or refresh token is a string of lower-case
    hexadecimal characters, two per random byte: 64 characters for the
    [TOKEN_LENGTH] bytes drawn. *)
Theorem generateSecureToken_shape (bytes : list Z) :
  String.length (generateSecureToken bytes) = (2 * List.length bytes)%nat /\
  Forall (fun c => In c hex_alphabet) (list_ascii_of_string (generateSecureToken bytes)) /\
  (List.length bytes = TOKEN_LENGTH -> String.length (generateSecureToken bytes) = 64%nat).
Proof.
  unfold generateSecureToken. split; [apply hex_length |]. split; [apply hex_chars_in |].
  intro H. rewrite hex_length, H. reflexivity.
Qed.

(** Extra: distinct random byte strings give distinct tokens: the hex
    encoding loses nothing. *)
Theorem generateSecureToken_injective (b1 b2 : list Z)
    (H1 : Forall (fun b => 0 <= b < 256) b1) (H2 : Forall (fun b => 0 <= b < 256) b2) :
  generateSecureToken b1 = generateSecureToken b2 -> b1 = b2.
Proof.
  unfold generateSecureToken. revert b2 H2.
  induction b1 as [| x b1 IH]; intros b2 H2 H; destruct b2 as [| y b2]; simpl in H;
    try discriminate; [reflexivity |].
  apply Forall_cons_iff in H1 as [Hx H1]. apply Forall_cons_iff in H2 as [Hy H2].
  injection H as Hq Hr Hrest.
  destruct (byte_digits x Hx), (byte_digits y Hy).
  apply hex_char_inj in Hq, Hr; try assumption.
  rewrite (IH H1 b2 H2 Hrest). f_equal.
  rewrite (Z.div_mod x 16), (Z.div_mod y 16) by lia. rewrite Hq, Hr. reflexivity.
Qed.

Lemma generateSecureToken_injective_witness :
  generateSecureToken [1; 2] <> generateSecureToken [1; 3] /\
  (generateSecureToken [255] = generateSecureToken [255] -> [255] = [255]).
Proof.
  split; [vm_compute; discriminate |].
  apply generateSecureToken_injective; repeat constructor; lia.
Defined.

(** ** Log-out *)

Lemma substring_bearer (tok : string) :
  substring 7 (String.length ("Bearer " ++ tok) - 7) ("Bearer " ++ tok) = tok.
Proof.
  simpl. rewrite Nat.sub_0_r.
  induction tok as [| c tok IH]; simpl; [reflexivity | f_equal; exact IH].
Qed.

Lemma revoked_tokens (tok : string) (l : list Session) :
  Forall (fun x => session_token x <> tok \/ is_active x = false)
    (map (fun s => if String.eqb (session_token s) tok then s_deactivate s else s) l).
Proof.
  apply Forall_forall. intros y Hy. apply in_map_iff in Hy as (x & <- & _).
  destruct (String.eqb (session_token x) tok) eqn:E.
  - right. reflexivity.
  - left. apply String.eqb_neq. exact E.
Qed.

Lemma prefix_self (a b : string) : String.prefix a (a ++ b) = true.
Proof.
  induction a as [| c a IH]; [destruct b; reflexivity |].
  simpl. destruct (Ascii.ascii_dec c c); [exact IH | contradiction].
Qed.

Lemma handleLogout_bearer (tok : string) (ip ua : option string) (now : Time) :
  handleLogout (Some ("Bearer " ++ tok)%string) None ip ua now =
  try_catch
    (let* session := validateSession tok now in
     let* _ := revokeSession tok in
     let* _ := match session with
               | Some c => logSecurityEvent (Some (c_userId c)) "logout" ip ua true [] now
               | None => ret tt
               end in
     ret {| statusCode := 200; body_of := MessageBody "Logged out successfully" |})
    (fun e =>
       let* _ := logSecurityEvent None "logout_error" ip ua false
                   [("error", JStr (exn_message e))] now in
       throw e).
Proof.
  unfold handleLogout.
  replace (header_or (Some ("Bearer " ++ tok)%string) None) with (Some ("Bearer " ++ tok)%string) by reflexivity.
  rewrite prefix_self. cbn [negb].
  rewrite substring_bearer. reflexivity.
Qed.

(** Extra: the log-out handler never throws, whatever the storage backend
    does; a missing header, or one not starting with "Bearer ", gives 400
    "Session token required" and touches nothing, and a bearer header
    always gives 200 "Logged out successfully", whether or not the token
    was a valid session. *)
Theorem handleLogout_outcome (authUpper authLower ip ua : option string) (now : Time)
    (o : Oracle) (w : World) :
  (exists r, fst (handleLogout authUpper authLower ip ua now o w) = inl r) /\
  (match header_or authUpper authLower with
   | Some a => String.prefix "Bearer " a = false
   | None => True
   end ->
   handleLogout authUpper authLower ip ua now o w =
     (inl {| statusCode := 400; body_of := ErrorBody "Session token required" |}, w)) /\
  (match header_or authUpper authLower with
   | Some a => String.prefix "Bearer " a = true
   | None => False
   end ->
   fst (handleLogout authUpper authLower ip ua now o w) =
     inl {| statusCode := 200; body_of := MessageBody "Logged out successfully" |}).
Proof.
  destruct w as [d tr]. unfold handleLogout.
  destruct (header_or authUpper authLower) as [a |];
    [| split; [eexists; reflexivity | split; [reflexivity | contradiction]]].
  destruct (String.prefix "Bearer " a) eqn:Hp; simpl negb; cbv iota;
    [| split; [eexists; reflexivity | split; [reflexivity | discriminate]]].
  cbv [try_catch bind ret throw validateSession revokeSession logSecurityEvent query db trace].
  split_branches; try discriminate;
    (split; [eexists; reflexivity | split; [discriminate | reflexivity]]).
Qed.

(** Extra: after a log-out with a bearer token, that token no longer
    validates, at any time. *)
Theorem handleLogout_revokes (tok : string) (ip ua : option string) (now tv : Time) (w : World) :
  fst (run (validateSession tok tv)
         (snd (run (handleLogout (Some ("Bearer " ++ tok)%string) None ip ua now) w))) = inl None.
Proof.
  apply validate_absent. destruct w as [d tr].
  unfold run. rewrite handleLogout_bearer.
  cbv [try_catch bind ret throw validateSession revokeSession logSecurityEvent query
       fault_free db trace].
  split_branches; try discriminate; apply revoked_tokens.
Qed.
